(** * A forward HTTP proxy with an LRU response cache

    Shallow embedding of the C++ proxy (class [LRUCache], [handle_request],
    [thread_fn]) and the properties of its specification.

    - [std::string] is [string]; [size()] is a [size_t], modelled as a [Z]
      with the 64-bit wrap-around of unsigned arithmetic written out.
    - [std::list<CacheEntry>] is a list of nodes; a node carries the identity
      that a [std::list] iterator denotes, so that the index
      [unordered_map<string, iterator>] really points into the list.
    - Socket calls are answered by a script of results supplied by the
      environment; a worker that needs an answer the script does not hold is
      blocked in that call. *)

From Stdlib Require Import ZArith String Ascii List Lia Permutation.
From stdpp Require Import base option list gmap strings.

Open Scope Z_scope.

(** ** [size_t] arithmetic *)

Module SizeT.

Definition modulus : Z := 2 ^ 64.

(** Conversion of an integer to [size_t]: reduction modulo [2^64]. *)
Definition wrap (z : Z) : Z := z mod modulus.

(** [s.size()] of a [std::string]. *)
Definition size (s : string) : Z := Z.of_nat (String.length s).

End SizeT.

Import SizeT.

(** ** The LRU cache *)

Module Cache.

(** [struct CacheEntry { string url; string data; }] *)
Record CacheEntry : Type := mkEntry { url : string; data : string }.

(** A [list<CacheEntry>::iterator] denotes a list node; nodes are told apart
    by their identity, which splicing does not change. *)
Abbreviation iterator := nat (only parsing).

Definition node : Type := (iterator * CacheEntry)%type.

(** The state of an [LRUCache] object.  [next_node] is the identity the next
    [push_front] gives to the node it allocates. *)
Record LRUCache : Type := mkCache {
  capacity_bytes : Z;
  current_size : Z;
  lru_list : list node;
  cache_map : gmap string iterator;
  next_node : iterator
}.

(** [url.size() + data.size()], computed in [size_t]. *)
Definition entry_bytes (e : CacheEntry) : Z := wrap (size (url e) + size (data e)).

(** [LRUCache(size_t cap) : capacity_bytes(cap), current_size(0) {}]; the
    argument is converted to [size_t] at the call. *)
Definition LRUCache_new (cap : Z) : LRUCache :=
  {| capacity_bytes := wrap cap; current_size := 0;
     lru_list := []; cache_map := ∅; next_node := 0%nat |}.

(** [#define MAX_CACHE_SIZE 200 * (1 << 20)] and the global
    [LRUCache cache(MAX_CACHE_SIZE)]. *)
Definition MAX_CACHE_SIZE : Z := 200 * Z.shiftl 1 20.

Definition cache : LRUCache := LRUCache_new MAX_CACHE_SIZE.

(** [*it]: the entry of the node an iterator denotes; [None] when no node of
    the list has that identity (a dangling iterator). *)
Fixpoint deref (it : iterator) (l : list node) : option CacheEntry :=
  match l with
  | [] => None
  | (i, e) :: l' => if decide (i = it) then Some e else deref it l'
  end.

(** [lru_list.erase(it)] *)
Fixpoint erase (it : iterator) (l : list node) : list node :=
  match l with
  | [] => []
  | (i, e) :: l' => if decide (i = it) then l' else (i, e) :: erase it l'
  end.

(** [lru_list.splice(lru_list.begin(), lru_list, it)]: the node moves to the
    front and keeps its identity. *)
Definition splice_front (it : iterator) (e : CacheEntry) (l : list node) : list node :=
  (it, e) :: erase it l.

(** [string get(string url)].  The result is [None] when the code
    dereferences a dangling iterator. *)
Definition get (key : string) (c : LRUCache) : option (string * LRUCache) :=
  match cache_map c !! key with
  | None => Some (EmptyString, c)
  | Some it =>
      match deref it (lru_list c) with
      | None => None
      | Some e =>
          Some (data e,
                {| capacity_bytes := capacity_bytes c;
                   current_size := current_size c;
                   lru_list := splice_front it e (lru_list c);
                   cache_map := cache_map c;
                   next_node := next_node c |})
      end
  end.

(** The first [if] of [put]: an existing entry for the key is removed. *)
Definition remove_old (key : string) (c : LRUCache) : option LRUCache :=
  match cache_map c !! key with
  | None => Some c
  | Some it =>
      match deref it (lru_list c) with
      | None => None
      | Some e =>
          Some {| capacity_bytes := capacity_bytes c;
                  current_size := wrap (current_size c - entry_bytes e);
                  lru_list := erase it (lru_list c);
                  cache_map := delete key (cache_map c);
                  next_node := next_node c |}
      end
  end.

(** The condition of the eviction loop:
    [current_size + entry_size > capacity_bytes && !lru_list.empty()]. *)
Definition evict_cond (entry_size : Z) (c : LRUCache) : bool :=
  (capacity_bytes c <? wrap (current_size c + entry_size))
  && negb (bool_decide (lru_list c = [])).

(** The body of the eviction loop: the node at the back is dropped. *)
Definition evict_body (c : LRUCache) : LRUCache :=
  match last (lru_list c) with
  | None => c
  | Some (_, e) =>
      {| capacity_bytes := capacity_bytes c;
         current_size := wrap (current_size c - entry_bytes e);
         lru_list := removelast (lru_list c);
         cache_map := delete (url e) (cache_map c);
         next_node := next_node c |}
  end.

(** The [while] loop of [put], unrolled at most [fuel] times. *)
Fixpoint evict_loop (fuel : nat) (entry_size : Z) (c : LRUCache) : LRUCache :=
  match fuel with
  | O => c
  | S fuel' =>
      if evict_cond entry_size c
      then evict_loop fuel' entry_size (evict_body c)
      else c
  end.

(** The last three statements of [put]. *)
Definition push_front (key value : string) (entry_size : Z) (c : LRUCache) : LRUCache :=
  {| capacity_bytes := capacity_bytes c;
     current_size := wrap (current_size c + entry_size);
     lru_list := (next_node c, mkEntry key value) :: lru_list c;
     cache_map := <[key := next_node c]> (cache_map c);
     next_node := S (next_node c) |}.

(** [void put(string url, const string& data)].  Every turn of the loop
    removes a node, so the length of the list is enough fuel. *)
Definition put (key value : string) (c : LRUCache) : option LRUCache :=
  let entry_size := wrap (size key + size value) in
  if capacity_bytes c <? entry_size then Some c
  else
    match remove_old key c with
    | None => None
    | Some c1 =>
        let c2 := evict_loop (length (lru_list c1)) entry_size c1 in
        Some (push_front key value entry_size c2)
    end.

(** Sequences of operations on one cache. *)
Inductive op : Type :=
| Get (key : string)
| Put (key value : string).

Definition step (o : op) (c : LRUCache) : option LRUCache :=
  match o with
  | Get k => snd <$> get k c
  | Put k v => put k v c
  end.

Fixpoint run (ops : list op) (c : LRUCache) : option LRUCache :=
  match ops with
  | [] => Some c
  | o :: ops' =>
      match step o c with
      | None => None
      | Some c' => run ops' c'
      end
  end.

(** The states a cache can be in: those some sequence of operations produces
    from a newly constructed cache. *)
Definition reachable (c : LRUCache) : Prop :=
  exists cap ops, run ops (LRUCache_new cap) = Some c.

(** The keys of a list of nodes, in the order of the list. *)
Definition node_keys (l : list node) : list string := (fun n => url n.2) <$> l.

(** The keys of the recency list, most recently used first. *)
Definition keys (c : LRUCache) : list string := node_keys (lru_list c).

(** The entries of the recency list, most recently used first. *)
Definition entries (c : LRUCache) : list CacheEntry := (lru_list c).*2.

(** The exact number of bytes held: the sum of [len(key) + len(value)]. *)
Fixpoint sum_sizes (l : list node) : Z :=
  match l with
  | [] => 0
  | (_, e) :: l' => size (url e) + size (data e) + sum_sizes l'
  end.

(** The representation invariant: node identities are distinct and older than
    [next_node], the index holds exactly the nodes of the list under their
    keys, and [current_size] is the [size_t] value of the bytes held. *)
Record inv (c : LRUCache) : Prop := mkInv {
  inv_cap : 0 <= capacity_bytes c < modulus;
  inv_ids : NoDup (lru_list c).*1;
  inv_fresh : forall n, n ∈ lru_list c -> (n.1 < next_node c)%nat;
  inv_index : forall k it,
      cache_map c !! k = Some it <-> exists e, (it, e) ∈ lru_list c /\ url e = k;
  inv_size : current_size c = wrap (sum_sizes (lru_list c))
}.

End Cache.

Import Cache.

(** ** Requests and their rewriting *)

Module Http.

Definition CRLF : string := String "013" (String "010" EmptyString).

(** The header terminator, [\r\n\r\n]. *)
Definition terminator : string := CRLF +:+ CRLF.

(** Modelled from the spec: the declaration of [ParsedHeader] in
    [proxy_parse.h] is not among the sources; a header is a (key, value)
    pair. *)
Record ParsedHeader : Type := mkHeader { key : string; value : string }.

(** Modelled from the spec: the declaration of [ParsedRequest] in
    [proxy_parse.h] is not among the sources; these are the fields the relay
    reads.  [port] is [None] for a null pointer, and [headers] holds the
    [headersused] headers in order. *)
Record ParsedRequest : Type := mkRequest {
  method : string;
  path : string;
  version : string;
  host : string;
  port : option string;
  headers : list ParsedHeader
}.

(** [::tolower] in the C locale. *)
Definition tolower (c : ascii) : ascii :=
  let n := nat_of_ascii c in
  if (65 <=? n)%nat && (n <=? 90)%nat then ascii_of_nat (n + 32) else c.

(** [std::transform(s.begin(), s.end(), s.begin(), f)] *)
Fixpoint transform (f : ascii -> ascii) (s : string) : string :=
  match s with
  | EmptyString => EmptyString
  | String c s' => String (f c) (transform f s')
  end.

(** The bytes of a sequence of strings, one after the other. *)
Fixpoint concat_all (l : list string) : string :=
  match l with
  | [] => EmptyString
  | s :: l' => s +:+ concat_all l'
  end.

(** The request line built first in [handle_request]. *)
Definition request_line (request : ParsedRequest) : string :=
  method request +:+ " " +:+ path request +:+ " " +:+ version request +:+ CRLF.

(** One turn of the header loop of [handle_request]. *)
Definition forward_header (req_str : string) (h : ParsedHeader) : string :=
  let key_lower := transform tolower (key h) in
  if String.eqb key_lower "host" || String.eqb key_lower "connection"
  then req_str
  else req_str +:+ (key h +:+ ": " +:+ value h +:+ CRLF).

(** Step 1 of [handle_request]: the request sent upstream. *)
Definition build_request (request : ParsedRequest) : string :=
  let req_str := fold_left forward_header (headers request) (request_line request) in
  let req_str := req_str +:+ ("Host: " +:+ host request +:+ CRLF) in
  req_str +:+ ("Connection: close" +:+ CRLF +:+ CRLF).

(** *** The outbound wire format, in the words of the specification *)

Definition toupper (c : ascii) : ascii :=
  let n := nat_of_ascii c in
  if (97 <=? n)%nat && (n <=? 122)%nat then ascii_of_nat (n - 32) else c.

(** Two strings are equal case-insensitively when they agree once all
    letters are folded to upper case. *)
Definition spec_equal_nocase (a b : string) : bool :=
  String.eqb (transform toupper a) (transform toupper b).

Definition spec_dropped (h : ParsedHeader) : bool :=
  spec_equal_nocase (key h) "Host" || spec_equal_nocase (key h) "Connection".

Definition spec_header_line (h : ParsedHeader) : string :=
  key h +:+ ": " +:+ value h +:+ CRLF.

Definition spec_outbound_request (request : ParsedRequest) : string :=
  (method request +:+ " " +:+ path request +:+ " " +:+ version request +:+ CRLF)
  +:+ concat_all
        (map spec_header_line
             (List.filter (fun h => negb (spec_dropped h)) (headers request)))
  +:+ ("Host: " +:+ host request +:+ CRLF)
  +:+ ("Connection: close" +:+ CRLF)
  +:+ CRLF.

End Http.

Import Http.

(** ** Sockets *)

Module Net.

Definition MAX_BYTES : Z := 4096.

(** What one [recv(fd, buffer, MAX_BYTES, 0)] returns: bytes, 0 when the
    peer has closed, or -1. *)
Inductive recv_result : Type :=
| RecvData (bytes : string)
| RecvClosed
| RecvError.

(** The return value of [recv]. *)
Definition recv_count (r : recv_result) : Z :=
  match r with
  | RecvData bytes => size bytes
  | RecvClosed => 0
  | RecvError => -1
  end.

(** The bytes [recv] left in the buffer. *)
Definition recv_bytes (r : recv_result) : string :=
  match r with
  | RecvData bytes => bytes
  | RecvClosed | RecvError => EmptyString
  end.

(** The bytes of a [recv] that returned data: between 1 and [MAX_BYTES]. *)
Definition chunk_valid (s : string) : Prop := 0 < size s <= MAX_BYTES.

(** The calls of a worker that others can observe, in order: the cache
    operations, the connection attempt, and the [send_all] calls. *)
Inductive action : Type :=
| CacheGet (key : string)
| CachePut (key value : string)
| Connect (host : string)
| SendRemote (bytes : string)
| SendClient (bytes : string)
| SendError (status : Z).

(** The key of a cache operation. *)
Definition cache_key_of (a : action) : option string :=
  match a with
  | CacheGet k | CachePut k _ => Some k
  | _ => None
  end.

(** The answers of the network to one worker.  The port of the connection
    ([atoi] of the parsed port, 80 by default) only reaches
    [connectRemoteServer], whose answer is [connect_ok]. *)
Record network : Type := mkNetwork {
  client_recvs : list recv_result; (* successive [recv] on the client socket *)
  connect_ok : bool;               (* [connectRemoteServer(...) >= 0] *)
  request_sent : bool;             (* [send_all(remoteSocketID, ...) >= 0] *)
  responses : list recv_result;    (* successive [recv] on the remote socket *)
  client_sends : list bool         (* [send_all(clientSocket, ...) >= 0], one per relayed chunk *)
}.

(** The outcome of running a piece of the worker: it finishes, it waits in a
    socket call the script has no answer for, or it dereferences a dangling
    iterator of the cache. *)
Inductive result (A : Type) : Type :=
| Done (a : A)
| Blocked
| Undefined.

Arguments Done {A} a.
Arguments Blocked {A}.
Arguments Undefined {A}.

End Net.

Import Net.

(** ** The relay: [handle_request] *)

Module Relay.

(** The relay loop:
    [while ((bytes_received = recv(remoteSocketID, ...)) > 0)
       { if (send_all(clientSocket, ...) < 0) break; temp_cache_data.append(...); }] *)
Fixpoint relay_loop (responses : list recv_result) (client_sends : list bool)
    (temp_cache_data : string) (trace : list action) : result (string * list action) :=
  match responses with
  | [] => Blocked
  | r :: responses' =>
      if 0 <? recv_count r then
        match client_sends with
        | [] => Blocked
        | sent :: client_sends' =>
            let trace' := trace ++ [SendClient (recv_bytes r)] in
            if sent
            then relay_loop responses' client_sends'
                            (temp_cache_data +:+ recv_bytes r) trace'
            else Done (temp_cache_data, trace')
        end
      else Done (temp_cache_data, trace)
  end.

(** [int handle_request(int clientSocket, ParsedRequest *request, string url)]:
    the return value, the cache afterwards and what was done. *)
Definition handle_request (net : network) (request : ParsedRequest) (url : string)
    (c : LRUCache) : result (Z * LRUCache * list action) :=
  let req_str := build_request request in
  if negb (connect_ok net) then Done (-1, c, [Connect (host request)])
  else if negb (request_sent net)
  then Done (-1, c, [Connect (host request); SendRemote req_str])
  else
    match relay_loop (responses net) (client_sends net) EmptyString
                     [Connect (host request); SendRemote req_str] with
    | Blocked => Blocked
    | Undefined => Undefined
    | Done (temp_cache_data, trace) =>
        match put url temp_cache_data c with
        | None => Undefined
        | Some c' => Done (0, c', trace ++ [CachePut url temp_cache_data])
        end
    end.

End Relay.

Import Relay.

(** ** The worker: [thread_fn] *)

Module Worker.

Definition MAX_HEADER_SIZE : Z := 64 * 1024.

(** [raw_req.find("\r\n\r\n") != string::npos] *)
Definition header_found (raw_req : string) : bool :=
  match index 0 terminator raw_req with
  | Some _ => true
  | None => false
  end.

(** The header loop of [thread_fn]; the result is
    [(raw_req, total_bytes, header_complete)]. *)
Fixpoint receive_loop (recvs : list recv_result) (raw_req : string) (total_bytes : Z)
    : result (string * Z * bool) :=
  if total_bytes <? MAX_HEADER_SIZE then
    match recvs with
    | [] => Blocked
    | r :: recvs' =>
        let recved := recv_count r in
        if recved <=? 0 then Done (raw_req, total_bytes, false)
        else
          let raw_req := raw_req +:+ recv_bytes r in
          let total_bytes := wrap (total_bytes + recved) in
          if header_found raw_req then Done (raw_req, total_bytes, true)
          else receive_loop recvs' raw_req total_bytes
    end
  else Done (raw_req, total_bytes, false).

(** The request's bytes up to and including the blank-line terminator, in
    the words of the specification. *)
Definition spec_cache_key (raw_req : string) : string :=
  match index 0 terminator raw_req with
  | Some n => substring 0 (n + String.length terminator) raw_req
  | None => raw_req
  end.

Section Thread.

(** [ParsedRequest_parse], of the parsing library: [None] when it returns a
    negative value. *)
Variable ParsedRequest_parse : string -> option ParsedRequest.

(** The branch [if (header_complete)] of [thread_fn]. *)
Definition lookup_and_dispatch (net : network) (raw_req : string) (c : LRUCache)
    : result (LRUCache * list action) :=
  match get raw_req c with
  | None => Undefined
  | Some (cached_resp, c) =>
      if negb (String.eqb cached_resp EmptyString)
      then Done (c, [CacheGet raw_req; SendClient cached_resp])
      else
        match ParsedRequest_parse raw_req with
        | None => Done (c, [CacheGet raw_req; SendError 400])
        | Some request =>
            if String.eqb (method request) "GET" then
              match handle_request net request raw_req c with
              | Blocked => Blocked
              | Undefined => Undefined
              | Done (ret, c', trace) =>
                  if ret =? -1
                  then Done (c', CacheGet raw_req :: trace ++ [SendError 500])
                  else Done (c', CacheGet raw_req :: trace)
              end
            else Done (c, [CacheGet raw_req; SendError 501])
        end
  end.

(** [void* thread_fn(void* socketNew)], from the header loop on. *)
Definition thread_fn (net : network) (c : LRUCache) : result (LRUCache * list action) :=
  match receive_loop (client_recvs net) EmptyString 0 with
  | Blocked => Blocked
  | Undefined => Undefined
  | Done (raw_req, total_bytes, header_complete) =>
      if header_complete then lookup_and_dispatch net raw_req c
      else if 0 <? total_bytes then Done (c, [SendError 400])
      else Done (c, [])
  end.

End Thread.

End Worker.

Import Worker.

(** ** The first end-to-end scenario of the specification *)

Module Scenario.

Definition raw_request : string :=
  "GET / HTTP/1.1" +:+ CRLF +:+ "Host: example.invalid" +:+ CRLF +:+ CRLF.

Definition parsed_request : ParsedRequest :=
  {| method := "GET"; path := "/"; version := "HTTP/1.1";
     host := "example.invalid"; port := None;
     headers := [mkHeader "Host" "example.invalid"] |}.

Definition upstream_response : string :=
  "HTTP/1.1 200 OK" +:+ CRLF +:+ "Content-Length: 2" +:+ CRLF +:+ CRLF +:+ "hi".

(** The first bytes of that response, as far as a broken connection
    delivered them. *)
Definition partial_response : string :=
  "HTTP/1.1 200 OK" +:+ CRLF +:+ "Content-Length: 2" +:+ CRLF +:+ CRLF +:+ "h".

(** A stand-in for the parsing library on the requests of the scenario:
    what follows the blank line does not change the parsed fields. *)
Definition parse (raw : string) : option ParsedRequest :=
  if String.prefix raw_request raw then Some parsed_request else None.

(** The network of a worker whose upstream answers with [responses], all
    calls other than the listed [recv] succeeding. *)
Definition network_of (client_recvs responses : list recv_result) : network :=
  {| client_recvs := client_recvs; connect_ok := true; request_sent := true;
     responses := responses;
     client_sends := replicate (length responses) true |}.

(** The same request followed by a body in the same segment. *)
Definition request_with_body : string := raw_request +:+ "BODY".

(** What the worker does for [request_with_body] on a miss, the upstream
    answering with [upstream_response]. *)
Definition body_trace : list action :=
  [CacheGet request_with_body;
   Connect "example.invalid";
   SendRemote (build_request parsed_request);
   SendClient upstream_response;
   CachePut request_with_body upstream_response].

(** What the worker does for a request whose upstream closes without
    sending anything. *)
Definition fetch_empty (raw : string) (request : ParsedRequest) : list action :=
  [CacheGet raw;
   Connect (host request);
   SendRemote (build_request request);
   CachePut raw EmptyString].

(** [n] bytes of padding, and a header block of [n] bytes that ends with
    the terminator. *)
Fixpoint filler (n : nat) : string :=
  match n with
  | O => EmptyString
  | S n' => String "a" (filler n')
  end.

Definition closing_chunk (n : nat) : string := filler (n - 4) +:+ terminator.

End Scenario.

(** ** The byte I/O helpers and the error reply *)

Module IO.

(** [errno] after a failed [send], as far as [send_all] tells it apart. *)
Inductive errno : Type := EINTR | EOTHER.

(** What the socket answers to one [send]: it takes up to [room] bytes of
    what it is offered, or the call fails. *)
Inductive send_result : Type :=
| SendRoom (room : nat)
| SendFail (e : errno).

(** The return value of [send(socket, buffer + total_sent, remaining, ...)]. *)
Definition send_return (r : send_result) (remaining : Z) : Z :=
  match r with
  | SendRoom room => Z.min (Z.of_nat room) remaining
  | SendFail _ => -1
  end.

(** [int send_all(int socket, const char* buffer, size_t length)]: the
    return value and the bytes that went out on the socket, in order;
    [total_sent] and [wire] are the state of the loop. *)
Fixpoint send_all (answers : list send_result) (buffer : string) (length : Z)
    (total_sent : Z) (wire : string) : result (Z * string) :=
  if total_sent <? length then
    match answers with
    | [] => Blocked
    | r :: answers' =>
        let sent := send_return r (length - total_sent) in
        if sent =? -1 then
          match r with
          | SendFail EINTR => send_all answers' buffer length total_sent wire
          | _ => Done (-1, wire)
          end
        else
          send_all answers' buffer length (wrap (total_sent + sent))
                   (wire +:+ substring (Z.to_nat total_sent) (Z.to_nat sent) buffer)
    end
  else Done (0, wire).

(** The room a sequence of answers offers in all. *)
Fixpoint total_room (answers : list send_result) : Z :=
  match answers with
  | [] => 0
  | SendRoom room :: answers' => Z.of_nat room + total_room answers'
  | SendFail _ :: answers' => total_room answers'
  end.

Definition is_interrupt (r : send_result) : bool :=
  match r with
  | SendFail EINTR => true
  | _ => false
  end.

Definition is_hard_failure (r : send_result) : bool :=
  match r with
  | SendFail EOTHER => true
  | _ => false
  end.

(** The answers of the system to one [connectRemoteServer]: the return
    value of [socket], whether [gethostbyname] found the host, and the
    return value of [connect]. *)
Record connect_answers : Type := mkConnect {
  socket_ret : Z;
  host_found : bool;
  connect_ret : Z
}.

(** What happens to file descriptors. *)
Inductive fd_event : Type :=
| FdOpen (fd : Z)
| FdClose (fd : Z).

(** [int connectRemoteServer(char* host_addr, int port_num)]: the return
    value and the descriptors opened and closed on the way. *)
Definition connectRemoteServer (sys : connect_answers) : Z * list fd_event :=
  let remoteSocket := socket_ret sys in
  if remoteSocket <? 0 then (-1, [])
  else if negb (host_found sys)
  then (-1, [FdOpen remoteSocket; FdClose remoteSocket])
  else if connect_ret sys <? 0
  then (-1, [FdOpen remoteSocket; FdClose remoteSocket])
  else (remoteSocket, [FdOpen remoteSocket]).

(** The descriptors that are open after a sequence of events. *)
Fixpoint open_fds (events : list fd_event) (opened : list Z) : list Z :=
  match events with
  | [] => opened
  | FdOpen fd :: events' => open_fds events' (opened ++ [fd])
  | FdClose fd :: events' =>
      open_fds events' (List.filter (fun fd' => negb (fd' =? fd)) opened)
  end.

(** The [switch] of [sendErrorMessage]. *)
Definition status_text (status_code : Z) : string :=
  match status_code with
  | 400 => "400 Bad Request"
  | 500 => "500 Internal Server Error"
  | 501 => "501 Not Implemented"
  | _ => "500 Internal Server Error"
  end.

Definition digit (n : Z) : ascii := ascii_of_nat (48 + Z.to_nat n).

(** The decimal digits of a natural number, most significant first, at most
    [fuel] of them. *)
Fixpoint digits (fuel : nat) (n : Z) (acc : string) : string :=
  match fuel with
  | O => acc
  | S fuel' =>
      let acc := String (digit (n mod 10)) acc in
      if n / 10 =? 0 then acc else digits fuel' (n / 10) acc
  end.

(** [%d] of an [int]: ten digits are enough for 32 bits. *)
Definition format_d (z : Z) : string :=
  if z <? 0 then String "-" (digits 10 (- z) EmptyString)
  else digits 10 z EmptyString.

(** The text [snprintf] is asked to write in [sendErrorMessage]. *)
Definition error_text (status_code : Z) (timebuf : string) : string :=
  "HTTP/1.1 " +:+ format_d status_code +:+ " " +:+ status_text status_code +:+ CRLF
  +:+ "Content-Length: 0" +:+ CRLF
  +:+ "Connection: close" +:+ CRLF
  +:+ "Date: " +:+ timebuf +:+ CRLF +:+ CRLF.

(** [snprintf(str, size, ...)] keeps at most [size - 1] bytes. *)
Definition snprintf (size : nat) (text : string) : string :=
  substring 0 (size - 1) text.

(** [int sendErrorMessage(int socket, int status_code)], for the time
    [strftime] wrote to [timebuf]: the return value and the bytes that went
    out; the result of [send_all] is not looked at. *)
Definition sendErrorMessage (answers : list send_result) (status_code : Z)
    (timebuf : string) : result (Z * string) :=
  let str := snprintf 1024 (error_text status_code timebuf) in
  match send_all answers str (size str) 0 EmptyString with
  | Done (_, wire) => Done (1, wire)
  | Blocked => Blocked
  | Undefined => Undefined
  end.

(** [recv] was asked for at most [MAX_BYTES] bytes. *)
Definition recv_bounded (r : recv_result) : Prop := recv_count r <= MAX_BYTES.

End IO.

Import IO.

(** ** Views of the cache *)

Module CacheView.

(** A [put] whose key and value have a size that fits [size_t]. *)
Definition op_representable (o : op) : Prop :=
  match o with
  | Get _ => True
  | Put k v => size k + size v < modulus
  end.

(** No wrap-around has happened: [current_size] is the number of bytes held,
    and twice the capacity still fits [size_t]. *)
Definition exact (c : LRUCache) : Prop :=
  current_size c = sum_sizes (lru_list c)
  /\ sum_sizes (lru_list c) <= capacity_bytes c
  /\ capacity_bytes c < 2 ^ 63.

(** The bytes the cache has counted for a list of nodes: the sum of the
    [size_t] sizes of their entries. *)
Fixpoint accounted (l : list node) : Z :=
  match l with
  | [] => 0
  | (_, e) :: l' => entry_bytes e + accounted l'
  end.

(** [current_size] is the sum of the sizes counted, within a capacity whose
    double fits [size_t]: the additions of [put] do not wrap around. *)
Definition tallied (c : LRUCache) : Prop :=
  current_size c = accounted (lru_list c)
  /\ accounted (lru_list c) <= capacity_bytes c
  /\ capacity_bytes c < 2 ^ 63.

End CacheView.

Import CacheView.

(** * Properties *)

(** ** [size_t] arithmetic *)

Module SizeTFacts.

Lemma wrap_range z : 0 <= wrap z < modulus.
Proof. unfold wrap, modulus. apply Z.mod_pos_bound. lia. Qed.

Lemma wrap_small z : 0 <= z < modulus -> wrap z = z.
Proof. unfold wrap. intros H. now apply Z.mod_small. Qed.

Lemma wrap_wrap z : wrap (wrap z) = wrap z.
Proof. apply wrap_small, wrap_range. Qed.

Lemma wrap_add_l a b : wrap (wrap a + b) = wrap (a + b).
Proof. unfold wrap. now rewrite Zplus_mod_idemp_l. Qed.

Lemma wrap_add_r a b : wrap (a + wrap b) = wrap (a + b).
Proof. unfold wrap. now rewrite Zplus_mod_idemp_r. Qed.

Lemma wrap_sub_l a b : wrap (wrap a - b) = wrap (a - b).
Proof. unfold wrap. now rewrite Zminus_mod_idemp_l. Qed.

Lemma wrap_sub_r a b : wrap (a - wrap b) = wrap (a - b).
Proof. unfold wrap. now rewrite Zminus_mod_idemp_r. Qed.

Lemma size_nonneg s : 0 <= size s.
Proof. unfold size. lia. Qed.

Lemma append_nil_l a : EmptyString +:+ a = a.
Proof. reflexivity. Qed.

Lemma append_cons ch a b : String ch a +:+ b = String ch (a +:+ b).
Proof. reflexivity. Qed.

Lemma append_nil_r a : a +:+ EmptyString = a.
Proof. induction a as [|ch a IH]; [done|]. by rewrite append_cons, IH. Qed.

Lemma append_assoc a b c : (a +:+ b) +:+ c = a +:+ (b +:+ c).
Proof. induction a as [|ch a IH]; [done|]. by rewrite !append_cons, IH. Qed.

Lemma length_append a b :
  String.length (a +:+ b) = (String.length a + String.length b)%nat.
Proof.
  induction a as [|ch a IH]; [done|].
  rewrite append_cons. simpl. by rewrite IH.
Qed.

Lemma size_append a b : size (a +:+ b) = size a + size b.
Proof. unfold size. rewrite length_append. lia. Qed.

End SizeTFacts.

Import SizeTFacts.

(** ** The recency list and the index *)

Module CacheFacts.

Lemma deref_elem it l e : deref it l = Some e -> (it, e) ∈ l.
Proof.
  induction l as [|[i e'] l IH]; simpl; [discriminate|].
  destruct (decide (i = it)) as [->|Hne]; intros H.
  - injection H as ->. apply list_elem_of_here.
  - apply list_elem_of_further; auto.
Qed.

Lemma elem_deref it l e : NoDup l.*1 -> (it, e) ∈ l -> deref it l = Some e.
Proof.
  induction l as [|[i e'] l IH]; simpl; intros Hnd Hin.
  - by apply elem_of_nil in Hin.
  - apply NoDup_cons in Hnd as [Hni Hnd].
    apply elem_of_cons in Hin as [Heq|Hin].
    + injection Heq as <- <-. by rewrite decide_True.
    + destruct (decide (i = it)) as [->|Hne]; [|by apply IH].
      exfalso. apply Hni. apply list_elem_of_fmap. by exists (it, e).
Qed.

Lemma deref_erase_perm it l e : deref it l = Some e -> l ≡ₚ (it, e) :: erase it l.
Proof.
  induction l as [|[i e'] l IH]; simpl; [discriminate|].
  destruct (decide (i = it)) as [->|Hne]; intros H.
  - by injection H as ->.
  - rewrite (IH H) at 1. apply Permutation_swap.
Qed.

(** Erasing a node splits the list around it and keeps the order of the
    others. *)
Lemma deref_erase_split it l e :
  deref it l = Some e ->
  exists l1 l2, l = l1 ++ (it, e) :: l2 /\ erase it l = l1 ++ l2.
Proof.
  induction l as [|[i e'] l IH]; simpl; [discriminate|].
  destruct (decide (i = it)) as [->|Hne]; intros H.
  - injection H as ->. by exists [], l.
  - destruct (IH H) as (l1 & l2 & -> & Hl). exists ((i, e') :: l1), l2.
    split; [done|]. by rewrite Hl.
Qed.

Lemma sum_sizes_perm l l' : l ≡ₚ l' -> sum_sizes l = sum_sizes l'.
Proof.
  induction 1 as [|[i e] l l' _ IH|[i e] [j f] l|l l' l'' _ IH1 _ IH2]; simpl; lia.
Qed.

Lemma last_snoc_perm {A} (l : list A) x : last l = Some x -> l = removelast l ++ [x].
Proof.
  intros H. destruct (decide (l = [])) as [->|Hne]; [discriminate|].
  rewrite (app_removelast_last x Hne) at 1. f_equal. f_equal.
  clear Hne. induction l as [|a [|b l] IH]; simpl in *; try discriminate.
  - by injection H.
  - by apply IH.
Qed.

Lemma removelast_length_pred {A} (l : list A) :
  length (removelast l) = pred (length l).
Proof.
  induction l as [|a [|b l] IH]; try done.
  change (removelast (a :: b :: l)) with (a :: removelast (b :: l)).
  simpl length in *. rewrite IH. lia.
Qed.

(** *** The invariant is kept *)

Lemma inv_new cap : inv (LRUCache_new cap).
Proof.
  split; simpl.
  - apply wrap_range.
  - constructor.
  - intros n Hn. by apply elem_of_nil in Hn.
  - intros k it. rewrite lookup_empty. split; [discriminate|].
    intros (e & He & _). by apply elem_of_nil in He.
  - reflexivity.
Qed.

Lemma inv_key_unique c i e j f :
  inv c -> (i, e) ∈ lru_list c -> (j, f) ∈ lru_list c -> url e = url f ->
  i = j /\ e = f.
Proof.
  intros Hinv Hi Hj Hk.
  assert (cache_map c !! url e = Some i) as H1 by (apply (inv_index _ Hinv); eauto).
  assert (cache_map c !! url e = Some j) as H2 by (apply (inv_index _ Hinv); eauto).
  assert (i = j) as -> by congruence. split; [done|].
  apply (elem_deref _ _ _ (inv_ids _ Hinv)) in Hi, Hj. congruence.
Qed.

(** Taking one node out of the list, its key out of the index and its bytes
    out of [current_size] keeps the invariant. *)
Lemma inv_drop c i e l' :
  inv c -> lru_list c ≡ₚ (i, e) :: l' ->
  inv {| capacity_bytes := capacity_bytes c;
         current_size := wrap (current_size c - entry_bytes e);
         lru_list := l';
         cache_map := delete (url e) (cache_map c);
         next_node := next_node c |}.
Proof.
  intros Hinv Hp.
  assert (NoDup (i :: l'.*1)) as Hnd.
  { change (NoDup ((i, e) :: l').*1). rewrite <- Hp. apply Hinv. }
  apply NoDup_cons in Hnd as [Hni Hnd].
  assert (forall n, n ∈ l' -> n ∈ lru_list c) as Hsub.
  { intros n Hn. rewrite Hp. by apply list_elem_of_further. }
  assert ((i, e) ∈ lru_list c) as Hie by (rewrite Hp; apply list_elem_of_here).
  split; simpl.
  - apply Hinv.
  - done.
  - intros n Hn. apply (inv_fresh _ Hinv). auto.
  - intros k it. rewrite lookup_delete_Some, (inv_index _ Hinv). split.
    + intros (Hne & f & Hf & Hk). exists f. split; [|done].
      rewrite Hp in Hf. apply elem_of_cons in Hf as [Heq|Hf]; [|done].
      injection Heq as -> ->. congruence.
    + intros (f & Hf & Hk). split; [|eauto].
      intros Heq. subst k.
      destruct (inv_key_unique c i e it f Hinv Hie (Hsub _ Hf) Heq) as [-> _].
      apply Hni. apply list_elem_of_fmap. by exists (it, f).
  - rewrite (inv_size _ Hinv), (sum_sizes_perm _ _ Hp). simpl.
    unfold entry_bytes. rewrite wrap_sub_l, wrap_sub_r. f_equal. lia.
Qed.

Lemma inv_lookup_deref c k it :
  inv c -> cache_map c !! k = Some it ->
  exists e, deref it (lru_list c) = Some e /\ url e = k.
Proof.
  intros Hinv Hk. apply (inv_index _ Hinv) in Hk as (e & He & Hu).
  exists e. split; [|done]. apply elem_deref; [apply Hinv|done].
Qed.

Lemma inv_remove_old k c :
  inv c -> exists c1, remove_old k c = Some c1 /\ inv c1 /\ cache_map c1 !! k = None
                      /\ capacity_bytes c1 = capacity_bytes c.
Proof.
  intros Hinv. unfold remove_old.
  destruct (cache_map c !! k) as [it|] eqn:Hk.
  - destruct (inv_lookup_deref _ _ _ Hinv Hk) as (e & He & Hu). rewrite He. subst k.
    eexists. split; [done|]. split; [|split; [|done]].
    + apply (inv_drop c it e); [done|]. by apply deref_erase_perm.
    + simpl. apply lookup_delete_eq.
  - by exists c.
Qed.

Lemma inv_evict_body c : inv c -> inv (evict_body c).
Proof.
  intros Hinv. unfold evict_body.
  destruct (last (lru_list c)) as [[i e]|] eqn:Hl; [|done].
  apply (inv_drop c i e); [done|]. rewrite (last_snoc_perm _ _ Hl) at 1.
  symmetry. apply Permutation_cons_append.
Qed.

Lemma evict_body_facts c :
  capacity_bytes (evict_body c) = capacity_bytes c
  /\ lru_list (evict_body c) = removelast (lru_list c)
  /\ next_node (evict_body c) = next_node c
  /\ forall k, cache_map c !! k = None -> cache_map (evict_body c) !! k = None.
Proof.
  unfold evict_body. destruct (last (lru_list c)) as [[i e]|] eqn:Hl; simpl.
  - repeat split; try done. intros k Hk. rewrite lookup_delete_None. by right.
  - repeat split; try done. by apply last_None in Hl as ->.
Qed.

Lemma evict_loop_facts fuel es c :
  inv c ->
  inv (evict_loop fuel es c)
  /\ capacity_bytes (evict_loop fuel es c) = capacity_bytes c
  /\ forall k, cache_map c !! k = None -> cache_map (evict_loop fuel es c) !! k = None.
Proof.
  revert c. induction fuel as [|fuel IH]; intros c Hinv; simpl; [done|].
  destruct (evict_cond es c); [|done].
  destruct (IH (evict_body c) (inv_evict_body _ Hinv)) as (H1 & H2 & H3).
  destruct (evict_body_facts c) as (E1 & _ & _ & E4).
  split; [done|]. split; [congruence|]. auto.
Qed.

(** With fuel for every node of the list the loop runs until its condition
    fails. *)
Lemma evict_loop_exit fuel es c :
  (length (lru_list c) <= fuel)%nat -> evict_cond es (evict_loop fuel es c) = false.
Proof.
  revert c. induction fuel as [|fuel IH]; intros c Hlen; simpl.
  - unfold evict_cond. destruct (lru_list c); [|simpl in Hlen; lia].
    rewrite bool_decide_eq_true_2 by done. apply andb_false_r.
  - destruct (evict_cond es c) eqn:Hc; [|done].
    apply IH. destruct (evict_body_facts c) as (_ & -> & _).
    rewrite removelast_length_pred. lia.
Qed.

Lemma inv_push_front k v es c :
  inv c -> cache_map c !! k = None -> es = wrap (size k + size v) ->
  inv (push_front k v es c).
Proof.
  intros Hinv Hk ->. split; simpl.
  - apply Hinv.
  - apply NoDup_cons. split; [|apply Hinv].
    intros Hin. apply list_elem_of_fmap in Hin as (n & Hn & Hin).
    apply (inv_fresh _ Hinv) in Hin. lia.
  - intros n Hn. apply elem_of_cons in Hn as [->|Hn]; simpl; [lia|].
    apply (inv_fresh _ Hinv) in Hn. lia.
  - intros k' it. rewrite lookup_insert_Some. split.
    + intros [[<- <-]|[Hne Hl]].
      * eexists. split; [apply list_elem_of_here|done].
      * apply (inv_index _ Hinv) in Hl as (e & He & Hu).
        exists e. split; [|done]. by apply list_elem_of_further.
    + intros (e & He & Hu). apply elem_of_cons in He as [Heq|He].
      * injection Heq as -> ->. by left.
      * right. assert (cache_map c !! k' = Some it) as Hl
          by (apply (inv_index _ Hinv); eauto).
        split; [congruence|done].
  - rewrite (inv_size _ Hinv), wrap_add_l, wrap_add_r. f_equal. lia.
Qed.

Lemma inv_get k c :
  inv c -> exists v c', get k c = Some (v, c') /\ inv c'
                        /\ capacity_bytes c' = capacity_bytes c
                        /\ current_size c' = current_size c.
Proof.
  intros Hinv. unfold get.
  destruct (cache_map c !! k) as [it|] eqn:Hk; [|by exists EmptyString, c].
  destruct (inv_lookup_deref _ _ _ Hinv Hk) as (e & He & Hu). rewrite He.
  eexists _, _. split; [done|]. split; [|done].
  pose proof (deref_erase_perm _ _ _ He) as Hp. unfold splice_front.
  split; simpl.
  - apply Hinv.
  - change (NoDup ((it, e) :: erase it (lru_list c)).*1). rewrite <- Hp. apply Hinv.
  - intros n Hn. rewrite <- Hp in Hn. by apply (inv_fresh _ Hinv).
  - intros k' it'. rewrite (inv_index _ Hinv). by setoid_rewrite Hp at 1.
  - rewrite (inv_size _ Hinv). f_equal. by apply (sum_sizes_perm _ _ Hp).
Qed.

Lemma inv_put k v c :
  inv c -> exists c', put k v c = Some c' /\ inv c'
                      /\ capacity_bytes c' = capacity_bytes c.
Proof.
  intros Hinv. unfold put.
  destruct (capacity_bytes c <? wrap (size k + size v)); [by exists c|].
  destruct (inv_remove_old k c Hinv) as (c1 & -> & Hinv1 & Hk1 & Hcap1).
  destruct (evict_loop_facts (length (lru_list c1)) (wrap (size k + size v)) c1 Hinv1)
    as (Hinv2 & Hcap2 & Hk2).
  eexists. split; [done|]. split.
  - apply inv_push_front; auto.
  - simpl. congruence.
Qed.

(** [put] leaves [current_size] within the capacity, whatever it was. *)
Lemma put_bounded k v c c' :
  inv c -> current_size c <= capacity_bytes c -> put k v c = Some c' ->
  current_size c' <= capacity_bytes c'.
Proof.
  intros Hinv Hb. unfold put.
  destruct (capacity_bytes c <? wrap (size k + size v)) eqn:Hbig.
  - by intros [= <-].
  - destruct (inv_remove_old k c Hinv) as (c1 & -> & Hinv1 & Hk1 & Hcap1).
    intros [= <-]. simpl.
    set (es := wrap (size k + size v)) in *.
    pose proof (evict_loop_exit (length (lru_list c1)) es c1 (le_n _)) as Hexit.
    destruct (evict_loop_facts (length (lru_list c1)) es c1 Hinv1) as (Hinv2 & Hcap2 & _).
    set (c2 := evict_loop (length (lru_list c1)) es c1) in *.
    unfold evict_cond in Hexit. apply andb_false_iff in Hexit as [Hfit|Hempty].
    + lia.
    + apply negb_false_iff, bool_decide_eq_true in Hempty.
      rewrite (inv_size _ Hinv2), Hempty. simpl.
      change (wrap 0) with 0. rewrite Z.add_0_l. unfold es. rewrite wrap_wrap.
      fold es. lia.
Qed.

Lemma inv_step o c :
  inv c -> current_size c <= capacity_bytes c ->
  exists c', step o c = Some c' /\ inv c' /\ current_size c' <= capacity_bytes c'.
Proof.
  intros Hinv Hb. destruct o as [k|k v]; simpl.
  - destruct (inv_get k c Hinv) as (v & c' & -> & Hinv' & Hcap & Hcs).
    exists c'. simpl. split; [done|]. split; [done|]. lia.
  - destruct (inv_put k v c Hinv) as (c' & Hput & Hinv' & Hcap).
    exists c'. split; [done|]. split; [done|].
    by apply (put_bounded k v c c').
Qed.

Lemma inv_run ops c :
  inv c -> current_size c <= capacity_bytes c ->
  exists c', run ops c = Some c' /\ inv c' /\ current_size c' <= capacity_bytes c'.
Proof.
  revert c. induction ops as [|o ops IH]; intros c Hinv Hb; simpl.
  - by exists c.
  - destruct (inv_step o c Hinv Hb) as (c1 & -> & Hinv1 & Hb1). by apply IH.
Qed.

Lemma run_new cap ops :
  exists c, run ops (LRUCache_new cap) = Some c /\ inv c
            /\ current_size c <= capacity_bytes c.
Proof.
  apply inv_run; [apply inv_new|]. simpl. apply wrap_range.
Qed.

Lemma reachable_inv c : reachable c -> inv c /\ current_size c <= capacity_bytes c.
Proof.
  intros (cap & ops & Hrun).
  destruct (run_new cap ops) as (c' & Hrun' & Hinv & Hb). by simplify_eq.
Qed.

Lemma run_app ops1 ops2 c :
  run (ops1 ++ ops2) c = run ops1 c ≫= run ops2.
Proof.
  revert c. induction ops1 as [|o ops1 IH]; intros c; simpl; [done|].
  destruct (step o c); simpl; auto.
Qed.

Lemma reachable_step o c c' : reachable c -> step o c = Some c' -> reachable c'.
Proof.
  intros (cap & ops & Hrun) Hstep. exists cap, (ops ++ [o]).
  rewrite run_app, Hrun. simpl. by rewrite Hstep.
Qed.

(** *** What [get] and [put] compute *)

Lemma put_oversized k v c :
  capacity_bytes c < wrap (size k + size v) -> put k v c = Some c.
Proof.
  intros H. unfold put.
  by destruct (Z.ltb_spec (capacity_bytes c) (wrap (size k + size v))); [|lia].
Qed.

Lemma put_stores k v c :
  inv c -> wrap (size k + size v) <= capacity_bytes c ->
  exists c1, remove_old k c = Some c1 /\ inv c1 /\ cache_map c1 !! k = None
    /\ put k v c =
       Some (push_front k v (wrap (size k + size v))
               (evict_loop (length (lru_list c1)) (wrap (size k + size v)) c1)).
Proof.
  intros Hinv Hfit. unfold put.
  destruct (Z.ltb_spec (capacity_bytes c) (wrap (size k + size v))); [lia|].
  destruct (inv_remove_old k c Hinv) as (c1 & -> & Hinv1 & Hk1 & _).
  by exists c1.
Qed.

Lemma get_miss k c : cache_map c !! k = None -> get k c = Some (EmptyString, c).
Proof. intros H. unfold get. by rewrite H. Qed.

Lemma get_hit k it c :
  inv c -> cache_map c !! k = Some it ->
  exists e, (it, e) ∈ lru_list c /\ url e = k
    /\ get k c =
       Some (data e,
             {| capacity_bytes := capacity_bytes c;
                current_size := current_size c;
                lru_list := (it, e) :: erase it (lru_list c);
                cache_map := cache_map c;
                next_node := next_node c |}).
Proof.
  intros Hinv Hk. destruct (inv_lookup_deref _ _ _ Hinv Hk) as (e & He & Hu).
  exists e. split; [by apply deref_elem|]. split; [done|].
  unfold get. by rewrite Hk, He.
Qed.

(** A key at the front of the list is read without changing the state. *)
Lemma get_front k it e rest c :
  lru_list c = (it, e) :: rest -> cache_map c !! k = Some it ->
  get k c = Some (data e, c).
Proof.
  intros Hl Hk. unfold get, splice_front. rewrite Hk, Hl. simpl.
  rewrite !decide_True by done. rewrite <- Hl. by destruct c.
Qed.

Lemma push_front_get k v es c :
  get k (push_front k v es c) = Some (v, push_front k v es c).
Proof.
  apply (get_front k (next_node c) (mkEntry k v) (lru_list c)); [done|].
  simpl. apply lookup_insert_eq.
Qed.

(** A storable entry: its size is a [size_t] and passes the first test of
    [put]. *)
Lemma storable_wrap k v c :
  inv c -> size k + size v <= capacity_bytes c ->
  wrap (size k + size v) = size k + size v.
Proof.
  intros Hinv Hfit. apply wrap_small.
  pose proof (size_nonneg k). pose proof (size_nonneg v).
  pose proof (inv_cap _ Hinv). lia.
Qed.

(** *** The eviction loop, turn by turn *)

Lemma evict_loop_iter fuel es c :
  exists n evicted,
    evict_loop fuel es c = Nat.iter n evict_body c
    /\ (forall i, (i < n)%nat -> evict_cond es (Nat.iter i evict_body c) = true)
    /\ lru_list c = lru_list (evict_loop fuel es c) ++ evicted
    /\ length evicted = n.
Proof.
  revert c. induction fuel as [|fuel IH]; intros c; simpl.
  - exists 0%nat, []. repeat split; [lia|by rewrite app_nil_r].
  - destruct (evict_cond es c) eqn:Hc.
    + destruct (IH (evict_body c)) as (n & ev & Hit & Hall & Hl & Hlen).
      destruct (evict_body_facts c) as (_ & Hrl & _).
      assert (exists x, last (lru_list c) = Some x) as [x Hx].
      { unfold evict_cond in Hc. apply andb_true_iff in Hc as [_ Hne].
        apply negb_true_iff, bool_decide_eq_false in Hne.
        destruct (last (lru_list c)) eqn:Hlast; [eauto|].
        by apply last_None in Hlast. }
      exists (S n), (ev ++ [x]). split; [|split; [|split]].
      * by rewrite Nat.iter_succ_r.
      * intros [|i] Hi; [done|]. rewrite Nat.iter_succ_r. apply Hall. lia.
      * rewrite (last_snoc_perm _ _ Hx) at 1. rewrite <- Hrl, Hl. by rewrite app_assoc.
      * rewrite length_app. simpl. lia.
    + exists 0%nat, []. repeat split; [lia|by rewrite app_nil_r].
Qed.

Lemma erase_sublist it l : erase it l `sublist_of` l.
Proof.
  induction l as [|[i e] l IH]; simpl; [done|].
  destruct (decide (i = it)); [by apply sublist_cons|by apply sublist_skip].
Qed.

Lemma remove_old_sublist k c c1 :
  remove_old k c = Some c1 -> lru_list c1 `sublist_of` lru_list c.
Proof.
  unfold remove_old. destruct (cache_map c !! k) as [it|]; [|by intros [= <-]].
  destruct (deref it (lru_list c)); [|done]. intros [= <-]. apply erase_sublist.
Qed.

Lemma inv_nodes_nodup c : inv c -> NoDup (lru_list c).
Proof. intros Hinv. apply (NoDup_fmap_1 fst), Hinv. Qed.

Lemma inv_keys_nodup c : inv c -> NoDup (keys c).
Proof.
  intros Hinv. apply NoDup_fmap_2_strong; [|by apply inv_nodes_nodup].
  intros [i e] [j f] Hi Hj Hk. simpl in Hk.
  by destruct (inv_key_unique c i e j f Hinv Hi Hj Hk) as [-> ->].
Qed.

(** In a state that keeps the invariant, the node at the front is the only
    one with its key. *)
Lemma inv_front_key_fresh c it e rest :
  inv c -> lru_list c = (it, e) :: rest -> url e ∉ node_keys rest.
Proof.
  intros Hinv Hl Hin. pose proof (inv_keys_nodup c Hinv) as Hnd.
  unfold keys in Hnd. rewrite Hl in Hnd. change (NoDup (url e :: node_keys rest)) in Hnd.
  by apply NoDup_cons in Hnd as [? _].
Qed.

Lemma evict_loop_capacity fuel es c :
  capacity_bytes (evict_loop fuel es c) = capacity_bytes c.
Proof.
  revert c. induction fuel as [|fuel IH]; intros c; simpl; [done|].
  destruct (evict_cond es c); [|done]. rewrite IH.
  by destruct (evict_body_facts c) as (-> & _).
Qed.

Lemma remove_old_capacity k c c1 :
  remove_old k c = Some c1 -> capacity_bytes c1 = capacity_bytes c.
Proof.
  unfold remove_old. destruct (cache_map c !! k); [|by intros [= <-]].
  destruct (deref _ _); [|done]. by intros [= <-].
Qed.

Lemma put_capacity k v c c' : put k v c = Some c' -> capacity_bytes c' = capacity_bytes c.
Proof.
  unfold put. destruct (_ <? _); [by intros [= <-]|].
  destruct (remove_old k c) as [c1|] eqn:Hrem; [|done]. intros [= <-]. simpl.
  by rewrite evict_loop_capacity, (remove_old_capacity k c c1).
Qed.

Lemma get_capacity k c v c' : get k c = Some (v, c') -> capacity_bytes c' = capacity_bytes c.
Proof.
  unfold get. destruct (cache_map c !! k); [|by intros [= _ <-]].
  destruct (deref _ _); [|done]. by intros [= _ <-].
Qed.

Lemma run_capacity ops c c' : run ops c = Some c' -> capacity_bytes c' = capacity_bytes c.
Proof.
  revert c. induction ops as [|o ops IH]; intros c; simpl; [by intros [= <-]|].
  destruct (step o c) as [c1|] eqn:Hstep; [|done]. intros Hrun. rewrite (IH _ Hrun).
  destruct o as [k|k v]; simpl in Hstep.
  - destruct (get k c) as [[v c1']|] eqn:Hget; [|done]. injection Hstep as <-.
    by apply (get_capacity k c v).
  - by apply (put_capacity k v).
Qed.

(** *** Counting without wrap-around *)

Lemma entry_bytes_range e : 0 <= entry_bytes e < modulus.
Proof. apply wrap_range. Qed.

Lemma accounted_nonneg l : 0 <= accounted l.
Proof.
  induction l as [|[i e] l IH]; simpl; [done|].
  pose proof (entry_bytes_range e). lia.
Qed.

Lemma accounted_perm l l' : l ≡ₚ l' -> accounted l = accounted l'.
Proof.
  induction 1 as [|[i e] l l' _ IH|[i e] [j f] l|l l' l'' _ IH1 _ IH2]; simpl; lia.
Qed.

Lemma tallied_drop c i e l' :
  tallied c -> lru_list c ≡ₚ (i, e) :: l' ->
  tallied {| capacity_bytes := capacity_bytes c;
             current_size := wrap (current_size c - entry_bytes e);
             lru_list := l';
             cache_map := delete (url e) (cache_map c);
             next_node := next_node c |}.
Proof.
  intros (Hcs & Hle & Hcap) Hp. pose proof (accounted_perm _ _ Hp) as Hsum.
  simpl in Hsum. pose proof (accounted_nonneg l'). pose proof (entry_bytes_range e).
  unfold tallied. simpl. rewrite Hcs, Hsum.
  rewrite wrap_small by (unfold modulus; lia). lia.
Qed.

Lemma tallied_remove_old k c c1 : tallied c -> remove_old k c = Some c1 -> tallied c1.
Proof.
  intros Ht. unfold remove_old.
  destruct (cache_map c !! k) as [it|]; [|by intros [= <-]].
  destruct (deref it (lru_list c)) as [e|] eqn:He; [|done]. intros [= <-].
  exact (tallied_drop c it e _ Ht (deref_erase_perm _ _ _ He)).
Qed.

Lemma tallied_evict_body c : tallied c -> tallied (evict_body c).
Proof.
  intros Ht. unfold evict_body.
  destruct (last (lru_list c)) as [[i e]|] eqn:Hl; [|done].
  apply (tallied_drop c i e); [done|]. rewrite (last_snoc_perm _ _ Hl) at 1.
  symmetry. apply Permutation_cons_append.
Qed.

Lemma tallied_iter n c : tallied c -> tallied (Nat.iter n evict_body c).
Proof. intros Ht. induction n as [|n IH]; simpl; [done|]. by apply tallied_evict_body. Qed.

Lemma tallied_evict_loop fuel es c : tallied c -> tallied (evict_loop fuel es c).
Proof.
  revert c. induction fuel as [|fuel IH]; intros c Ht; simpl; [done|].
  destruct (evict_cond es c); [|done]. by apply IH, tallied_evict_body.
Qed.

(** In a tallied state the test of the eviction loop is the comparison of
    the specification, without wrap-around. *)
Lemma tallied_no_wrap c es :
  tallied c -> 0 <= es <= capacity_bytes c ->
  wrap (current_size c + es) = current_size c + es.
Proof.
  intros (Hcs & Hle & Hcap) Hes. pose proof (accounted_nonneg (lru_list c)).
  apply wrap_small. unfold modulus. lia.
Qed.

Lemma tallied_put k v c c' : tallied c -> put k v c = Some c' -> tallied c'.
Proof.
  intros Ht. unfold put.
  pose proof (wrap_range (size k + size v)) as Hes.
  set (es := wrap (size k + size v)) in *.
  destruct (Z.ltb_spec (capacity_bytes c) es) as [|Hfit]; [by intros [= <-]|].
  destruct (remove_old k c) as [c1|] eqn:Hrem; [|done]. intros [= <-].
  pose proof (tallied_remove_old k c c1 Ht Hrem) as Ht1.
  pose proof (tallied_evict_loop (length (lru_list c1)) es c1 Ht1) as Ht2.
  pose proof (evict_loop_exit (length (lru_list c1)) es c1 (le_n _)) as Hexit.
  assert (capacity_bytes (evict_loop (length (lru_list c1)) es c1) = capacity_bytes c)
    as Hcap by (by rewrite evict_loop_capacity, (remove_old_capacity k c c1)).
  set (c2 := evict_loop (length (lru_list c1)) es c1) in *.
  pose proof (tallied_no_wrap c2 es Ht2 ltac:(lia)) as Hnw.
  destruct Ht2 as (Hcs2 & Hle2 & Hcap2).
  pose proof (accounted_nonneg (lru_list c2)) as Hnn.
  assert (current_size c2 + es <= capacity_bytes c2) as Hroom.
  { unfold evict_cond in Hexit. apply andb_false_iff in Hexit as [Hfit'|Hempty].
    - rewrite Hnw in Hfit'. lia.
    - apply negb_false_iff, bool_decide_eq_true in Hempty.
      rewrite Hcs2, Hempty. simpl. lia. }
  unfold tallied. simpl. rewrite Hnw. fold es.
  change (entry_bytes {| url := k; data := v |}) with es. lia.
Qed.

Lemma tallied_get k c v c' : tallied c -> get k c = Some (v, c') -> tallied c'.
Proof.
  intros Ht. unfold get. destruct (cache_map c !! k) as [it|]; [|by intros [= _ <-]].
  destruct (deref it (lru_list c)) as [e|] eqn:He; [|done]. intros [= _ <-].
  pose proof (accounted_perm _ _ (deref_erase_perm _ _ _ He)) as Hsum.
  unfold tallied, splice_front in *. simpl in *. by rewrite <- Hsum.
Qed.

Lemma tallied_run ops c c' : tallied c -> run ops c = Some c' -> tallied c'.
Proof.
  revert c. induction ops as [|o ops IH]; intros c Ht; simpl; [by intros [= <-]|].
  destruct (step o c) as [c1|] eqn:Hstep; [|done]. apply IH.
  destruct o as [k|k v]; simpl in Hstep.
  - destruct (get k c) as [[v c1']|] eqn:Hget; [|done]. injection Hstep as <-.
    by apply (tallied_get k c v).
  - by apply (tallied_put k v c).
Qed.

Lemma reachable_tallied c : reachable c -> capacity_bytes c < 2 ^ 63 -> tallied c.
Proof.
  intros (cap & ops & Hrun) Hcap. apply (tallied_run ops (LRUCache_new cap)); [|done].
  pose proof (run_capacity _ _ _ Hrun) as Hsame. simpl in Hsame.
  unfold tallied. simpl. pose proof (wrap_range cap). lia.
Qed.

Lemma inv_key_in_index c k : inv c -> k ∈ keys c <-> is_Some (cache_map c !! k).
Proof.
  intros Hinv. unfold keys, node_keys. rewrite list_elem_of_fmap. split.
  - intros ([it e] & -> & Hin). exists it. apply (inv_index _ Hinv). eauto.
  - intros [it Hit]. apply (inv_index _ Hinv) in Hit as (e & He & Hu).
    exists (it, e). by split.
Qed.

Lemma iter_evict_capacity n c :
  capacity_bytes (Nat.iter n evict_body c) = capacity_bytes c.
Proof.
  induction n as [|n IH]; simpl; [done|].
  by destruct (evict_body_facts (Nat.iter n evict_body c)) as (-> & _).
Qed.

(** One turn of the eviction loop on a list that is not empty. *)
Lemma evict_body_turn c :
  lru_list c <> [] ->
  exists it e,
    last (lru_list c) = Some (it, e)
    /\ lru_list (evict_body c) = removelast (lru_list c)
    /\ cache_map (evict_body c) = delete (url e) (cache_map c)
    /\ current_size (evict_body c) = wrap (current_size c - entry_bytes e).
Proof.
  intros Hne. unfold evict_body.
  destruct (last (lru_list c)) as [[it e]|] eqn:Hl.
  - by exists it, e.
  - by apply last_None in Hl.
Qed.

End CacheFacts.

Import CacheFacts.

(** ** The cache: the properties of the specification *)

Module CacheSpec.

(** The eviction scenario of the specification: with a capacity of 100
    bytes, after an entry A of 60 bytes and an entry B of 60 bytes only B is
    left and [current_size] is 60. *)
Example eviction_scenario :
  (fun c => (current_size c, keys c, fst <$> get (Scenario.filler 2) c))
    <$> run [Put (Scenario.filler 2) (Scenario.filler 58);
             Put (Scenario.filler 3) (Scenario.filler 57)]
            (LRUCache_new 100)
  = Some (60, [Scenario.filler 3], Some EmptyString).
Proof. vm_compute. reflexivity. Qed.

(** A hit moves the entry to the front and leaves the rest in order. *)
Example recency_scenario :
  (fun c => keys c)
    <$> run [Put "a" "1"; Put "b" "2"; Put "c" "3"; Get "a"] (LRUCache_new 100)
  = Some ["a"; "c"; "b"].
Proof. vm_compute. reflexivity. Qed.

(** C3: for every sequence of cache operations starting from the empty
    cache, after every completed [get] or [put] (after every prefix of the
    sequence) the operations have returned and
    [current_size <= capacity_bytes] holds. *)
Theorem C3_size_within_capacity (cap : Z) (ops : list op) (n : nat) :
  exists c, run (take n ops) (LRUCache_new cap) = Some c
            /\ current_size c <= capacity_bytes c.
Proof.
  destruct (run_new cap (take n ops)) as (c & Hrun & _ & Hb). by exists c.
Qed.

(** C4: for every cache state, a [put(k, v)] with
    [len(k)+len(v) > capacity_bytes] returns with the cache unchanged
    (recency list, index and [current_size] identical); and on every state
    the cache can be in, an entry with [len(k)+len(v)] exactly equal to
    [capacity_bytes] is stored: it is the front node of the list, the index
    points to it and [get] returns its value.  The lengths are those of
    strings whose sum is a [size_t]. *)
Theorem C4_put_capacity_boundary :
  (forall c k v,
      size k + size v < modulus -> capacity_bytes c < size k + size v ->
      put k v c = Some c)
  /\ (forall c k v,
         reachable c -> size k + size v = capacity_bytes c ->
         exists c' it rest,
           put k v c = Some c'
           /\ lru_list c' = (it, mkEntry k v) :: rest
           /\ cache_map c' !! k = Some it
           /\ get k c' = Some (v, c')).
Proof.
  split.
  - intros c k v Hrep Hbig. apply put_oversized.
    rewrite wrap_small; [done|]. pose proof (size_nonneg k). pose proof (size_nonneg v). lia.
  - intros c k v Hreach Heq. apply reachable_inv in Hreach as [Hinv _].
    assert (wrap (size k + size v) = size k + size v) as Hw.
    { apply wrap_small. rewrite Heq. apply Hinv. }
    destruct (put_stores k v c Hinv) as (c1 & _ & _ & _ & Hput); [lia|].
    eexists _, _, _. split; [exact Hput|]. split; [done|].
    split; [apply lookup_insert_eq|]. apply push_front_get.
Qed.

Lemma C4_witness :
  put "key" "value!" (LRUCache_new 8) = Some (LRUCache_new 8)
  /\ exists c' it rest,
       put "key" "value" (LRUCache_new 8) = Some c'
       /\ lru_list c' = (it, mkEntry "key" "value") :: rest
       /\ cache_map c' !! "key" = Some it
       /\ get "key" c' = Some ("value", c').
Proof.
  destruct C4_put_capacity_boundary as [Hover Hexact]. split.
  - apply Hover; vm_compute; done.
  - apply Hexact; [by exists 8, []|]. vm_compute. done.
Defined.

(** C5: on every state the cache can be in, for a key [k] and storable
    values [v1] and [v2], [put(k, v1); put(k, v2)] followed by [get(k)]
    returns [v2]; after the second [put] the list holds one entry for [k],
    the one with [v2] at the front, the others being nodes that already
    followed the entry of [v1], and [current_size] is the size of that entry
    plus the sizes of the others: the bytes of [v1] are not counted. *)
Theorem C5_put_overwrite (c : LRUCache) (k v1 v2 : string) :
  reachable c ->
  size k + size v1 <= capacity_bytes c ->
  size k + size v2 <= capacity_bytes c ->
  exists c1 c2 c3 it1 rest1 it2 rest2,
    put k v1 c = Some c1
    /\ put k v2 c1 = Some c2
    /\ get k c2 = Some (v2, c3)
    /\ lru_list c1 = (it1, mkEntry k v1) :: rest1
    /\ lru_list c2 = (it2, mkEntry k v2) :: rest2
    /\ (rest2 `prefix_of` rest1)
    /\ (k ∉ node_keys rest2)
    /\ current_size c2 = wrap (size k + size v2 + sum_sizes rest2).
Proof.
  intros Hreach Hfit1 Hfit2. apply reachable_inv in Hreach as [Hinv _].
  pose proof (storable_wrap k v1 c Hinv Hfit1) as Hw1.
  destruct (put_stores k v1 c Hinv) as (c0 & _ & _ & _ & Hput1); [lia|].
  destruct (inv_put k v1 c Hinv) as (c1 & Hput1' & Hinv1 & Hcap1).
  rewrite Hput1 in Hput1'. injection Hput1' as Hc1.
  set (es1 := wrap (size k + size v1)) in *.
  set (c0' := evict_loop (length (lru_list c0)) es1 c0) in *.
  assert (lru_list c1 = (next_node c0', mkEntry k v1) :: lru_list c0') as Hl1
    by by rewrite <- Hc1.
  assert (cache_map c1 !! k = Some (next_node c0')) as Hk1.
  { rewrite <- Hc1. simpl. apply lookup_insert_eq. }
  pose proof (storable_wrap k v2 c1 Hinv1 ltac:(lia)) as Hw2.
  destruct (put_stores k v2 c1 Hinv1) as (c1r & Hrem & Hinv1r & _ & Hput2); [lia|].
  destruct (inv_put k v2 c1 Hinv1) as (c2 & Hput2' & Hinv2 & _).
  rewrite Hput2 in Hput2'. injection Hput2' as Hc2.
  set (es2 := wrap (size k + size v2)) in *.
  assert (lru_list c1r = lru_list c0') as Hl1r.
  { unfold remove_old in Hrem. rewrite Hk1, Hl1 in Hrem. simpl in Hrem.
    rewrite !decide_True in Hrem by done. by injection Hrem as <-. }
  destruct (evict_loop_iter (length (lru_list c1r)) es2 c1r) as (n & ev & _ & _ & Hsplit & _).
  set (c2' := evict_loop (length (lru_list c1r)) es2 c1r) in *.
  assert (lru_list c2 = (next_node c2', mkEntry k v2) :: lru_list c2') as Hl2
    by by rewrite <- Hc2.
  exists c1, c2, c2, (next_node c0'), (lru_list c0'), (next_node c2'), (lru_list c2').
  split; [by rewrite Hput1, Hc1|]. split; [by rewrite Hput2, Hc2|].
  split; [rewrite <- Hc2; apply push_front_get|].
  split; [done|]. split; [done|].
  split; [exists ev; by rewrite <- Hl1r|].
  split; [exact (inv_front_key_fresh c2 _ (mkEntry k v2) _ Hinv2 Hl2)|].
  rewrite (inv_size _ Hinv2), Hl2. simpl. f_equal.
Qed.

Lemma C5_witness :
  exists c1 c2 c3 it1 rest1 it2 rest2,
    put "k" "old" (LRUCache_new 16) = Some c1
    /\ put "k" "newer" c1 = Some c2
    /\ get "k" c2 = Some ("newer", c3)
    /\ lru_list c1 = (it1, mkEntry "k" "old") :: rest1
    /\ lru_list c2 = (it2, mkEntry "k" "newer") :: rest2
    /\ (rest2 `prefix_of` rest1)
    /\ ("k" ∉ node_keys rest2)
    /\ current_size c2 = wrap (size "k" + size "newer" + sum_sizes rest2).
Proof.
  apply (C5_put_overwrite (LRUCache_new 16) "k" "old" "newer").
  - by exists 16, [].
  - vm_compute. discriminate.
  - vm_compute. discriminate.
Defined.

(** C6: on every state the cache can be in, a [put(k, v)] that stores, with
    [s = len(k)+len(v)], first removes the old entry of [k] if there is one
    and then runs the eviction body some [n] times.  Before each of these
    turns [current_size + s > capacity_bytes] held (in [size_t] arithmetic,
    which for a capacity below [2^63] is the plain comparison) and the list
    was not empty; each turn took the node at the tail out of the list, its
    key out of the index and its size out of [current_size]; after the last
    turn [current_size + s <= capacity_bytes] or the list is empty.  The
    list left by the removal is the surviving nodes followed by the [n]
    evicted ones; after the [put] the list is the new entry followed by the
    survivors and the evicted keys are out of the index.  So in the recency
    list before the [put], whose keys are distinct, every surviving key
    differs from and stands before every evicted key. *)
Theorem C6_eviction_from_tail (c : LRUCache) (k v : string) :
  reachable c ->
  size k + size v <= capacity_bytes c ->
  exists c1 n survivors evicted,
    remove_old k c = Some c1
    /\ put k v c
       = Some (push_front k v (size k + size v) (Nat.iter n evict_body c1))
    /\ (forall i, (i < n)%nat ->
          evict_cond (size k + size v) (Nat.iter i evict_body c1) = true
          /\ capacity_bytes c
             < wrap (current_size (Nat.iter i evict_body c1) + (size k + size v))
          /\ (capacity_bytes c < 2 ^ 63 ->
              capacity_bytes c < current_size (Nat.iter i evict_body c1) + (size k + size v))
          /\ lru_list (Nat.iter i evict_body c1) <> []
          /\ lru_list (Nat.iter (S i) evict_body c1)
             = removelast (lru_list (Nat.iter i evict_body c1))
          /\ exists it e,
               last (lru_list (Nat.iter i evict_body c1)) = Some (it, e)
               /\ cache_map (Nat.iter (S i) evict_body c1)
                  = delete (url e) (cache_map (Nat.iter i evict_body c1))
               /\ current_size (Nat.iter (S i) evict_body c1)
                  = wrap (current_size (Nat.iter i evict_body c1) - entry_bytes e))
    /\ evict_cond (size k + size v) (Nat.iter n evict_body c1) = false
    /\ (wrap (current_size (Nat.iter n evict_body c1) + (size k + size v)) <= capacity_bytes c
        \/ lru_list (Nat.iter n evict_body c1) = [])
    /\ (capacity_bytes c < 2 ^ 63 ->
        current_size (Nat.iter n evict_body c1) + (size k + size v) <= capacity_bytes c
        \/ lru_list (Nat.iter n evict_body c1) = [])
    /\ lru_list c1 = survivors ++ evicted
    /\ length evicted = n
    /\ lru_list (Nat.iter n evict_body c1) = survivors
    /\ (exists c' it,
          put k v c = Some c'
          /\ lru_list c' = (it, mkEntry k v) :: survivors
          /\ forall ke, ke ∈ node_keys evicted -> cache_map c' !! ke = None)
    /\ NoDup (keys c)
    /\ forall ks ke,
         ks ∈ node_keys survivors -> ke ∈ node_keys evicted ->
         ks <> ke /\ [ks; ke] `sublist_of` keys c.
Proof.
  intros Hreach Hfit. pose proof (reachable_inv c Hreach) as [Hinv _].
  pose proof (storable_wrap k v c Hinv Hfit) as Hw.
  pose proof (size_nonneg k) as Hk0. pose proof (size_nonneg v) as Hv0.
  destruct (put_stores k v c Hinv) as (c1 & Hrem & Hinv1 & Hk1 & Hput); [lia|].
  rewrite Hw in Hput.
  pose proof (remove_old_capacity k c c1 Hrem) as Hcap1.
  assert (forall i, capacity_bytes (Nat.iter i evict_body c1) = capacity_bytes c) as Hcapi
    by (intros i; by rewrite iter_evict_capacity).
  assert (capacity_bytes c < 2 ^ 63 -> forall i,
            wrap (current_size (Nat.iter i evict_body c1) + (size k + size v))
            = current_size (Nat.iter i evict_body c1) + (size k + size v)) as Hnw.
  { intros Hsmall i. apply tallied_no_wrap; [|rewrite Hcapi; lia].
    apply tallied_iter, (tallied_remove_old k c); [|done].
    by apply reachable_tallied. }
  pose proof (evict_loop_exit (length (lru_list c1)) (size k + size v) c1 (le_n _)) as Hexit.
  destruct (evict_loop_iter (length (lru_list c1)) (size k + size v) c1)
    as (n & ev & Hit & Hall & Hsplit & Hlen).
  rewrite Hit in Hput, Hexit, Hsplit.
  assert (wrap (current_size (Nat.iter n evict_body c1) + (size k + size v))
            <= capacity_bytes c
          \/ lru_list (Nat.iter n evict_body c1) = []) as Hstop.
  { unfold evict_cond in Hexit. rewrite Hcapi in Hexit.
    apply andb_false_iff in Hexit as [Hlt|Hempty].
    - left. apply Z.ltb_ge in Hlt. lia.
    - right. by apply negb_false_iff, bool_decide_eq_true in Hempty. }
  assert (node_keys (lru_list c1) `sublist_of` keys c) as Hsub
    by (apply fmap_sublist; by apply (remove_old_sublist k)).
  pose proof (sublist_NoDup _ _ (inv_keys_nodup c Hinv) Hsub) as Hnd1.
  rewrite Hsplit in Hnd1. unfold node_keys in Hnd1. rewrite fmap_app in Hnd1.
  apply NoDup_app in Hnd1 as (_ & Hdisj & _).
  exists c1, n, (lru_list (Nat.iter n evict_body c1)), ev.
  split; [done|]. split; [done|]. split.
  { intros i Hi. pose proof (Hall i Hi) as Hc. split; [done|].
    unfold evict_cond in Hc. rewrite Hcapi in Hc. apply andb_true_iff in Hc as [Hlt Hne].
    apply Z.ltb_lt in Hlt. apply negb_true_iff, bool_decide_eq_false in Hne.
    split; [done|]. split; [intros Hsmall; by rewrite <- (Hnw Hsmall i)|].
    split; [done|]. simpl.
    destruct (evict_body_turn _ Hne) as (it & e & Hlast & Hl & Hm & Hcs).
    split; [done|]. by exists it, e. }
  split; [done|]. split; [done|].
  split; [intros Hsmall; by rewrite <- (Hnw Hsmall n)|].
  split; [done|]. split; [done|]. split; [done|]. split.
  { eexists _, _. split; [exact Hput|]. split; [done|].
    intros ke Hke.
    destruct (inv_put k v c Hinv) as (c' & Hput' & Hinv' & _).
    rewrite Hput in Hput'. injection Hput' as Hc'. rewrite Hc'.
    destruct (cache_map c' !! ke) as [it'|] eqn:Hl; [exfalso|done].
    apply (inv_index _ Hinv') in Hl as (e & He & Hu).
    rewrite <- Hc' in He. simpl in He. apply elem_of_cons in He as [Heq|He].
    - injection Heq as _ ->. simpl in Hu. subst ke.
      assert (k ∈ keys c1) as Hin.
      { unfold keys. rewrite Hsplit. unfold node_keys. rewrite fmap_app.
        apply elem_of_app. by right. }
      apply (inv_key_in_index c1 k Hinv1) in Hin as [? Hin]. congruence.
    - apply (Hdisj ke); [|done]. apply list_elem_of_fmap. by exists (it', e). }
  split; [by apply inv_keys_nodup|].
  intros ks ke Hs He. split.
  - intros ->. by apply (Hdisj ke).
  - transitivity (node_keys (lru_list c1)); [|done].
    rewrite Hsplit. unfold node_keys. rewrite fmap_app.
    apply (sublist_app [ks] _ [ke]); by apply singleton_sublist_l.
Qed.

Lemma C6_witness :
  exists c1 n survivors evicted,
    remove_old "c" (push_front "b" "2" 2 (push_front "a" "1" 2 (LRUCache_new 4))) = Some c1
    /\ put "c" "3" (push_front "b" "2" 2 (push_front "a" "1" 2 (LRUCache_new 4)))
       = Some (push_front "c" "3" (size "c" + size "3") (Nat.iter n evict_body c1))
    /\ (forall i, (i < n)%nat ->
          evict_cond (size "c" + size "3") (Nat.iter i evict_body c1) = true
          /\ capacity_bytes (push_front "b" "2" 2 (push_front "a" "1" 2 (LRUCache_new 4)))
             < wrap (current_size (Nat.iter i evict_body c1) + (size "c" + size "3"))
          /\ (capacity_bytes (push_front "b" "2" 2 (push_front "a" "1" 2 (LRUCache_new 4))) < 2 ^ 63 ->
              capacity_bytes (push_front "b" "2" 2 (push_front "a" "1" 2 (LRUCache_new 4))) < current_size (Nat.iter i evict_body c1) + (size "c" + size "3"))
          /\ lru_list (Nat.iter i evict_body c1) <> []
          /\ lru_list (Nat.iter (S i) evict_body c1)
             = removelast (lru_list (Nat.iter i evict_body c1))
          /\ exists it e,
               last (lru_list (Nat.iter i evict_body c1)) = Some (it, e)
               /\ cache_map (Nat.iter (S i) evict_body c1)
                  = delete (url e) (cache_map (Nat.iter i evict_body c1))
               /\ current_size (Nat.iter (S i) evict_body c1)
                  = wrap (current_size (Nat.iter i evict_body c1) - entry_bytes e))
    /\ evict_cond (size "c" + size "3") (Nat.iter n evict_body c1) = false
    /\ (wrap (current_size (Nat.iter n evict_body c1) + (size "c" + size "3")) <= capacity_bytes (push_front "b" "2" 2 (push_front "a" "1" 2 (LRUCache_new 4)))
        \/ lru_list (Nat.iter n evict_body c1) = [])
    /\ (capacity_bytes (push_front "b" "2" 2 (push_front "a" "1" 2 (LRUCache_new 4))) < 2 ^ 63 ->
        current_size (Nat.iter n evict_body c1) + (size "c" + size "3") <= capacity_bytes (push_front "b" "2" 2 (push_front "a" "1" 2 (LRUCache_new 4)))
        \/ lru_list (Nat.iter n evict_body c1) = [])
    /\ lru_list c1 = survivors ++ evicted
    /\ length evicted = n
    /\ lru_list (Nat.iter n evict_body c1) = survivors
    /\ (exists c' it,
          put "c" "3" (push_front "b" "2" 2 (push_front "a" "1" 2 (LRUCache_new 4))) = Some c'
          /\ lru_list c' = (it, mkEntry "c" "3") :: survivors
          /\ forall ke, ke ∈ node_keys evicted -> cache_map c' !! ke = None)
    /\ NoDup (keys (push_front "b" "2" 2 (push_front "a" "1" 2 (LRUCache_new 4))))
    /\ forall ks ke,
         ks ∈ node_keys survivors -> ke ∈ node_keys evicted ->
         ks <> ke /\ [ks; ke] `sublist_of` keys (push_front "b" "2" 2 (push_front "a" "1" 2 (LRUCache_new 4))).
Proof.
  apply (C6_eviction_from_tail
           (push_front "b" "2" 2 (push_front "a" "1" 2 (LRUCache_new 4))) "c" "3").
  - exists 4, [Put "a" "1"; Put "b" "2"]. vm_compute. reflexivity.
  - vm_compute. discriminate.
Defined.

(** C7: on every state the cache can be in, immediately after a [get(k)]
    that hits and after a [put(k, v)] that stores, the entry with key [k] is
    the front node of the recency list; and for [get(k); get(k)] the second
    call returns what the first returned and changes nothing, the entries
    of the list and the index are those from before the first call, and a
    key that was present is at the front. *)
Theorem C7_used_key_at_front (c : LRUCache) (k : string) :
  reachable c ->
  (forall it, cache_map c !! k = Some it ->
     exists v c' rest,
       get k c = Some (v, c') /\ lru_list c' = (it, mkEntry k v) :: rest)
  /\ (forall v, size k + size v <= capacity_bytes c ->
        exists c' it rest,
          put k v c = Some c' /\ lru_list c' = (it, mkEntry k v) :: rest)
  /\ (exists v c1,
        get k c = Some (v, c1)
        /\ get k c1 = Some (v, c1)
        /\ entries c1 ≡ₚ entries c
        /\ cache_map c1 = cache_map c
        /\ (is_Some (cache_map c !! k) -> head (keys c1) = Some k)).
Proof.
  intros Hreach. apply reachable_inv in Hreach as [Hinv _].
  split; [|split].
  - intros it Hk. destruct (get_hit k it c Hinv Hk) as ([u d] & _ & Hu & Hget).
    simpl in Hu. subst u. eexists _, _, _. split; [exact Hget|done].
  - intros v Hfit. pose proof (storable_wrap k v c Hinv Hfit) as Hw.
    destruct (put_stores k v c Hinv) as (c1 & _ & _ & _ & Hput); [lia|].
    eexists _, _, _. split; [exact Hput|done].
  - destruct (cache_map c !! k) as [it|] eqn:Hk.
    + destruct (get_hit k it c Hinv Hk) as (e & Hin & Hu & Hget).
      eexists _, _. split; [exact Hget|].
      split; [by apply (get_front k it e (erase it (lru_list c)))|].
      split; [|split; [done|]].
      * unfold entries. simpl lru_list. symmetry.
        apply (fmap_Permutation snd), deref_erase_perm, elem_deref; [apply Hinv|done].
      * intros _. unfold keys. simpl. by rewrite Hu.
    + exists EmptyString, c. rewrite (get_miss k c Hk).
      split; [done|]. split; [done|]. split; [done|]. split; [done|].
      by intros [? ?].
Qed.

Lemma C7_witness :
  let c := push_front "b" "2" 2 (push_front "a" "1" 2 (LRUCache_new 4)) in
  (forall it, cache_map c !! "a" = Some it ->
     exists v c' rest,
       get "a" c = Some (v, c') /\ lru_list c' = (it, mkEntry "a" v) :: rest)
  /\ (forall v, size "a" + size v <= capacity_bytes c ->
        exists c' it rest,
          put "a" v c = Some c' /\ lru_list c' = (it, mkEntry "a" v) :: rest)
  /\ (exists v c1,
        get "a" c = Some (v, c1)
        /\ get "a" c1 = Some (v, c1)
        /\ entries c1 ≡ₚ entries c
        /\ cache_map c1 = cache_map c
        /\ (is_Some (cache_map c !! "a") -> head (keys c1) = Some "a")).
Proof.
  apply (C7_used_key_at_front
           (push_front "b" "2" 2 (push_front "a" "1" 2 (LRUCache_new 4))) "a").
  exists 4, [Put "a" "1"; Put "b" "2"]. vm_compute. reflexivity.
Defined.

End CacheSpec.

(** ** The rewritten request *)

Module HttpFacts.

Lemma toupper_tolower ch : toupper (tolower ch) = toupper ch.
Proof. destruct ch as [[] [] [] [] [] [] [] []]; vm_compute; reflexivity. Qed.

Lemma tolower_toupper ch : tolower (toupper ch) = tolower ch.
Proof. destruct ch as [[] [] [] [] [] [] [] []]; vm_compute; reflexivity. Qed.

Lemma transform_compose f g s :
  transform f (transform g s) = transform (fun ch => f (g ch)) s.
Proof. induction s as [|ch s IH]; simpl; [done|]. by rewrite IH. Qed.

Lemma transform_ext f g s : (forall ch, f ch = g ch) -> transform f s = transform g s.
Proof. intros H. induction s as [|ch s IH]; simpl; [done|]. by rewrite H, IH. Qed.

(** Two strings agree in lower case exactly when they agree in upper case. *)
Lemma lower_eq_iff_upper_eq a b :
  transform tolower a = transform tolower b <-> transform toupper a = transform toupper b.
Proof.
  assert (forall s, transform toupper s = transform toupper (transform tolower s)) as Eu.
  { intros s. rewrite transform_compose. apply transform_ext.
    intros ch. symmetry. apply toupper_tolower. }
  assert (forall s, transform tolower s = transform tolower (transform toupper s)) as El.
  { intros s. rewrite transform_compose. apply transform_ext.
    intros ch. symmetry. apply tolower_toupper. }
  split; intros H.
  - by rewrite (Eu a), (Eu b), H.
  - by rewrite (El a), (El b), H.
Qed.

Lemma lower_eqb_nocase k name :
  String.eqb (transform tolower k) (transform tolower name) = spec_equal_nocase k name.
Proof.
  unfold spec_equal_nocase.
  destruct (String.eqb_spec (transform tolower k) (transform tolower name)) as [H|H];
    destruct (String.eqb_spec (transform toupper k) (transform toupper name)) as [H'|H'];
    try done; exfalso.
  - by apply H', lower_eq_iff_upper_eq.
  - by apply H, lower_eq_iff_upper_eq.
Qed.

(** The test of the header loop is the case-insensitive comparison with
    [Host] and [Connection]. *)
Lemma skipped_iff_dropped h :
  String.eqb (transform tolower (key h)) "host"
  || String.eqb (transform tolower (key h)) "connection" = spec_dropped h.
Proof.
  unfold spec_dropped.
  by rewrite <- (lower_eqb_nocase (key h) "Host"), <- (lower_eqb_nocase (key h) "Connection").
Qed.

Lemma fold_forward_header hs acc :
  fold_left forward_header hs acc
  = acc +:+ concat_all (map spec_header_line
                          (List.filter (fun h => negb (spec_dropped h)) hs)).
Proof.
  revert acc. induction hs as [|h hs IH]; intros acc; simpl.
  - by rewrite append_nil_r.
  - rewrite IH. unfold forward_header. rewrite skipped_iff_dropped.
    destruct (spec_dropped h); simpl; [done|].
    by rewrite append_assoc.
Qed.

(** Headers named [Host] and [Connection], in any case, are replaced. *)
Example rewrite_scenario :
  build_request
    {| method := "GET"; path := "/index.html"; version := "HTTP/1.0";
       host := "example.invalid"; port := None;
       headers := [mkHeader "HOST" "other.invalid"; mkHeader "Accept" "*/*";
                   mkHeader "connection" "keep-alive"] |}
  = "GET /index.html HTTP/1.0" +:+ CRLF
    +:+ "Accept: */*" +:+ CRLF
    +:+ "Host: example.invalid" +:+ CRLF
    +:+ "Connection: close" +:+ CRLF +:+ CRLF.
Proof. vm_compute. reflexivity. Qed.

(** C8: for every parsed request, hence for every GET request, the outbound
    request assembled by the relay is the request line
    [METHOD SP PATH SP VERSION CRLF], followed by the client's headers in
    their order without those whose key equals [Host] or [Connection]
    case-insensitively, followed by [Host: <parsed-host>\r\n],
    [Connection: close\r\n] and the blank line [\r\n]. *)
Theorem C8_outbound_request (request : ParsedRequest) :
  build_request request = spec_outbound_request request.
Proof.
  unfold build_request, spec_outbound_request, request_line.
  rewrite fold_forward_header. by rewrite !append_assoc.
Qed.

End HttpFacts.

Import HttpFacts.

(** ** The relay *)

Module RelayFacts.

Lemma relay_loop_unfold responses client_sends temp trace :
  relay_loop responses client_sends temp trace =
  match responses with
  | [] => Blocked
  | r :: responses' =>
      if 0 <? recv_count r then
        match client_sends with
        | [] => Blocked
        | sent :: client_sends' =>
            if sent
            then relay_loop responses' client_sends' (temp +:+ recv_bytes r)
                            (trace ++ [SendClient (recv_bytes r)])
            else Done (temp, trace ++ [SendClient (recv_bytes r)])
        end
      else Done (temp, trace)
  end.
Proof. by destruct responses. Qed.

(** Chunks that the client takes are forwarded and accumulated in order. *)
Lemma relay_loop_chunks chunks rest sends temp trace :
  Forall (fun s => 0 < size s) chunks ->
  relay_loop ((RecvData <$> chunks) ++ rest) (replicate (length chunks) true ++ sends)
             temp trace
  = relay_loop rest sends (temp +:+ concat_all chunks) (trace ++ (SendClient <$> chunks)).
Proof.
  revert temp trace. induction chunks as [|s chunks IH]; intros temp trace Hpos.
  - simpl. by rewrite append_nil_r, app_nil_r.
  - apply Forall_cons in Hpos as [Hs Hpos].
    rewrite fmap_cons. simpl app. rewrite relay_loop_unfold. simpl recv_count.
    destruct (Z.ltb_spec 0 (size s)); [|lia].
    rewrite (IH _ _ Hpos). simpl. by rewrite append_assoc, <- app_assoc.
Qed.

(** The loop ends on the first [recv] that returns 0 or -1, with the same
    result for both. *)
Lemma relay_loop_end r rest sends temp trace :
  recv_count r <= 0 -> relay_loop (r :: rest) sends temp trace = Done (temp, trace).
Proof.
  intros Hr. rewrite relay_loop_unfold.
  by destruct (Z.ltb_spec 0 (recv_count r)); [lia|].
Qed.

(** C1, as the code has it: once the upstream connection is made and the
    request sent, when the relay loop ends after forwarding the chunks it
    received, be it at upstream EOF or on an upstream read error, [put] is
    called with the request key and the bytes accumulated so far; an entry
    that fits the capacity is then in the cache. *)
Theorem C1_relay_inserts_at_loop_end (net : network) (request : ParsedRequest)
    (url : string) (c : LRUCache) (chunks : list string) (ending : recv_result)
    (rest : list recv_result) (sends : list bool) :
  reachable c ->
  connect_ok net = true ->
  request_sent net = true ->
  Forall (fun s => 0 < size s) chunks ->
  responses net = (RecvData <$> chunks) ++ ending :: rest ->
  ending = RecvClosed \/ ending = RecvError ->
  client_sends net = replicate (length chunks) true ++ sends ->
  exists c',
    put url (concat_all chunks) c = Some c'
    /\ handle_request net request url c
       = Done (0, c',
               [Connect (host request); SendRemote (build_request request)]
                 ++ (SendClient <$> chunks)
                 ++ [CachePut url (concat_all chunks)])
    /\ (size url + size (concat_all chunks) <= capacity_bytes c ->
        get url c' = Some (concat_all chunks, c')).
Proof.
  intros Hreach Hconn Hsent Hpos Hresp Hend Hsends.
  apply reachable_inv in Hreach as [Hinv _].
  destruct (inv_put url (concat_all chunks) c Hinv) as (c' & Hput & _ & _).
  exists c'. split; [done|]. split.
  - unfold handle_request. rewrite Hconn, Hsent, Hresp, Hsends. simpl negb. cbv iota.
    rewrite (relay_loop_chunks chunks _ _ _ _ Hpos).
    rewrite relay_loop_end by (destruct Hend as [-> | ->]; simpl; lia).
    rewrite append_nil_l, Hput. by rewrite <- app_assoc.
  - intros Hfit. pose proof (storable_wrap url _ c Hinv Hfit) as Hw.
    destruct (put_stores url (concat_all chunks) c Hinv) as (c1 & _ & _ & _ & Hput'); [lia|].
    rewrite Hput in Hput'. injection Hput' as ->. apply push_front_get.
Qed.

Lemma C1_witness :
  exists c',
    put Scenario.raw_request (concat_all [Scenario.partial_response]) cache = Some c'
    /\ handle_request
         (Scenario.network_of [] [RecvData Scenario.partial_response; RecvError])
         Scenario.parsed_request Scenario.raw_request cache
       = Done (0, c',
               [Connect (host Scenario.parsed_request);
                SendRemote (build_request Scenario.parsed_request)]
                 ++ (SendClient <$> [Scenario.partial_response])
                 ++ [CachePut Scenario.raw_request
                       (concat_all [Scenario.partial_response])])
    /\ (size Scenario.raw_request + size (concat_all [Scenario.partial_response])
          <= capacity_bytes cache ->
        get Scenario.raw_request c'
        = Some (concat_all [Scenario.partial_response], c')).
Proof.
  apply (C1_relay_inserts_at_loop_end
           (Scenario.network_of [] [RecvData Scenario.partial_response; RecvError])
           Scenario.parsed_request Scenario.raw_request cache
           [Scenario.partial_response] RecvError [] [true]).
  - by exists MAX_CACHE_SIZE, [].
  - reflexivity.
  - reflexivity.
  - repeat constructor.
  - reflexivity.
  - by right.
  - reflexivity.
Defined.

(** C1 as the specification states it fails: the upstream connection breaks
    after the first bytes of the response ([recv] returns -1), and the
    truncated response is inserted under the request key all the same; a
    later [get] of that key returns it. *)
Lemma C1_counterexample :
  exists c',
    handle_request
      (Scenario.network_of [] [RecvData Scenario.partial_response; RecvError])
      Scenario.parsed_request Scenario.raw_request cache
    = Done (0, c',
            [Connect "example.invalid";
             SendRemote (build_request Scenario.parsed_request);
             SendClient Scenario.partial_response;
             CachePut Scenario.raw_request Scenario.partial_response])
    /\ get Scenario.raw_request c' = Some (Scenario.partial_response, c')
    /\ c' <> cache.
Proof.
  eexists. split; [vm_compute; reflexivity|]. split; [vm_compute; reflexivity|].
  intros H. apply (f_equal lru_list) in H. vm_compute in H. discriminate H.
Qed.

End RelayFacts.

Import RelayFacts.

(** ** The worker *)

Module WorkerFacts.

Lemma receive_loop_unfold recvs raw_req total_bytes :
  receive_loop recvs raw_req total_bytes =
  if total_bytes <? MAX_HEADER_SIZE then
    match recvs with
    | [] => Blocked
    | r :: recvs' =>
        if recv_count r <=? 0 then Done (raw_req, total_bytes, false)
        else if header_found (raw_req +:+ recv_bytes r)
        then Done (raw_req +:+ recv_bytes r, wrap (total_bytes + recv_count r), true)
        else receive_loop recvs' (raw_req +:+ recv_bytes r)
                          (wrap (total_bytes + recv_count r))
    end
  else Done (raw_req, total_bytes, false).
Proof. by destruct recvs. Qed.

(** *** Searching the terminator *)

Lemma substring_zero_length n s : substring n 0 s = EmptyString.
Proof.
  revert n. induction s as [|ch s IH]; intros [|n]; simpl; auto.
Qed.

(** A substring that has its full length is found again when bytes are
    appended. *)
Lemma substring_append a b n len :
  String.length (substring n len a) = len ->
  substring n len (a +:+ b) = substring n len a.
Proof.
  revert n len. induction a as [|ch a IH]; intros n len Hlen.
  - assert (len = 0%nat) as -> by (destruct n, len; simpl in Hlen; lia).
    by rewrite !substring_zero_length.
  - rewrite append_cons. destruct n as [|n]; simpl in *.
    + destruct len as [|len]; [done|]. simpl in Hlen. f_equal. apply IH. lia.
    + by apply IH.
Qed.

(** Bytes that hold the terminator still hold it when more are appended. *)
Lemma header_found_append a b : header_found a = true -> header_found (a +:+ b) = true.
Proof.
  unfold header_found. destruct (index 0 terminator a) as [n|] eqn:Ha; [|done].
  intros _. destruct (index 0 terminator (a +:+ b)) as [m|] eqn:Hab; [done|].
  exfalso. apply index_correct1 in Ha.
  apply (index_correct3 0 n) in Hab; [|done|lia].
  apply Hab. rewrite substring_append; [done|]. by rewrite Ha.
Qed.

Lemma header_not_found_prefix a b :
  header_found (a +:+ b) = false -> header_found a = false.
Proof.
  intros H. destruct (header_found a) eqn:Ha; [|done].
  by rewrite (header_found_append a b Ha) in H.
Qed.

Lemma substring_is_prefix m s : exists tail, s = substring 0 m s +:+ tail.
Proof.
  revert s. induction m as [|m IH]; intros s.
  - exists s. by rewrite substring_zero_length.
  - destruct s as [|ch s]; simpl; [by exists EmptyString|].
    destruct (IH s) as [tail Ht]. exists tail. by rewrite append_cons, <- Ht.
Qed.

(** The key of the specification is the beginning of the received bytes. *)
Lemma spec_cache_key_prefix raw : exists tail, raw = spec_cache_key raw +:+ tail.
Proof.
  unfold spec_cache_key. destruct (index 0 terminator raw) as [n|].
  - apply substring_is_prefix.
  - exists EmptyString. by rewrite append_nil_r.
Qed.

(** *** The header loop *)

Lemma size_concat_nonneg chunks : 0 <= size (concat_all chunks).
Proof. apply size_nonneg. Qed.

(** Chunks without the terminator that stay below the ceiling are all
    appended. *)
Lemma receive_loop_chunks chunks rest raw0 total0 :
  0 <= total0 ->
  Forall chunk_valid chunks ->
  header_found (raw0 +:+ concat_all chunks) = false ->
  total0 + size (concat_all chunks) < MAX_HEADER_SIZE + MAX_BYTES ->
  total0 + size (concat_all (removelast chunks)) < MAX_HEADER_SIZE ->
  receive_loop ((RecvData <$> chunks) ++ rest) raw0 total0
  = receive_loop rest (raw0 +:+ concat_all chunks) (total0 + size (concat_all chunks)).
Proof.
  revert raw0 total0. induction chunks as [|s chunks IH];
    intros raw0 total0 Htot Hvalid Hnot Hsum Hbefore.
  - simpl. by rewrite append_nil_r, Z.add_0_r.
  - apply Forall_cons in Hvalid as [[Hs1 Hs2] Hvalid].
    assert (total0 < MAX_HEADER_SIZE) as Hlt.
    { pose proof (size_concat_nonneg (removelast (s :: chunks))). lia. }
    simpl concat_all in Hsum, Hnot. rewrite size_append in Hsum.
    rewrite <- append_assoc in Hnot.
    pose proof (header_not_found_prefix _ _ Hnot) as Hnot1.
    pose proof (size_concat_nonneg chunks) as Hc.
    rewrite fmap_cons. simpl app. rewrite receive_loop_unfold.
    simpl recv_count. simpl recv_bytes.
    destruct (Z.ltb_spec total0 MAX_HEADER_SIZE); [|lia].
    destruct (Z.leb_spec (size s) 0); [lia|].
    rewrite Hnot1.
    rewrite wrap_small by (unfold modulus, MAX_HEADER_SIZE, MAX_BYTES in *; lia).
    destruct chunks as [|s' chunks].
    { simpl. by rewrite !append_nil_r. }
    rewrite IH; try done; try lia.
    + simpl concat_all. by rewrite !append_assoc, !size_append, !Z.add_assoc.
    + change (removelast (s :: s' :: chunks)) with (s :: removelast (s' :: chunks)) in Hbefore.
      change (concat_all (s :: ?l)) with (s +:+ concat_all l) in Hbefore.
      rewrite size_append in Hbefore. lia.
Qed.

Lemma concat_all_app l1 l2 : concat_all (l1 ++ l2) = concat_all l1 +:+ concat_all l2.
Proof.
  induction l1 as [|s l1 IH]; simpl; [done|]. by rewrite IH, append_assoc.
Qed.

Lemma concat_all_snoc l s : concat_all (l ++ [s]) = concat_all l +:+ s.
Proof. rewrite concat_all_app. simpl. by rewrite append_nil_r. Qed.

(** The header loop up to the chunk that decides how it ends. *)
Lemma receive_loop_before_last pre last rest :
  Forall chunk_valid (pre ++ [last]) ->
  header_found (concat_all pre) = false ->
  size (concat_all pre) < MAX_HEADER_SIZE ->
  receive_loop ((RecvData <$> (pre ++ [last])) ++ rest) EmptyString 0
  = if header_found (concat_all (pre ++ [last]))
    then Done (concat_all (pre ++ [last]), size (concat_all (pre ++ [last])), true)
    else receive_loop rest (concat_all (pre ++ [last]))
                      (size (concat_all (pre ++ [last]))).
Proof.
  intros Hvalid Hnot Hlt. apply Forall_app in Hvalid as [Hpre Hlast].
  apply Forall_singleton in Hlast as [Hl1 Hl2].
  pose proof (size_concat_nonneg pre) as Hp.
  rewrite fmap_app, <- app_assoc.
  assert (size (concat_all (removelast pre)) <= size (concat_all pre)) as Hrl.
  { destruct (decide (pre = [])) as [->|Hne]; [done|].
    rewrite (app_removelast_last EmptyString Hne) at 2.
    rewrite concat_all_snoc, size_append. pose proof (size_nonneg (List.last pre EmptyString)). lia. }
  rewrite receive_loop_chunks; try done; try (unfold MAX_BYTES; lia).
  rewrite append_nil_l, Z.add_0_l. simpl fmap. simpl app.
  rewrite receive_loop_unfold. simpl recv_count. simpl recv_bytes.
  destruct (Z.ltb_spec (size (concat_all pre)) MAX_HEADER_SIZE); [|lia].
  destruct (Z.leb_spec (size last) 0); [lia|].
  rewrite concat_all_snoc, size_append.
  rewrite wrap_small by (unfold modulus, MAX_HEADER_SIZE, MAX_BYTES in *; lia).
  done.
Qed.

(** Whatever the branch [if (header_complete)] does, it starts with the
    lookup of the buffer. *)
Lemma lookup_and_dispatch_head parse net raw c c' trace :
  lookup_and_dispatch parse net raw c = Done (c', trace) ->
  head trace = Some (CacheGet raw).
Proof.
  unfold lookup_and_dispatch. destruct (get raw c) as [[resp c1]|]; [|done].
  destruct (negb _); [by intros [= _ <-]|].
  destruct (parse raw) as [request|]; [|by intros [= _ <-]].
  destruct (String.eqb _ _); [|by intros [= _ <-]].
  destruct (handle_request net request raw c1) as [[[ret c2] tr]| |]; try done.
  by destruct (ret =? -1); intros [= _ <-].
Qed.

Section Reception.

Variable ParsedRequest_parse : string -> option ParsedRequest.

(** C9: the header loop of the worker, for the chunks it receives.
    (a) As soon as the accumulated bytes contain [\r\n\r\n] the worker
    proceeds to the lookup with them, also when they are exactly 65536
    bytes: the first thing a worker that finishes has done is the [get] of
    the accumulated bytes; when that [get] returns a non-empty value the
    worker sends it to the client and is done, and when it returns the
    empty string the worker parses the accumulated bytes and answers 400
    for bytes that do not parse, 501 for a method other than GET, and
    otherwise what the relay gives, with 500 when the relay returns -1.
    (b) When the accepted bytes reach [MAX_HEADER_SIZE] = 65536
    without the terminator it responds 400.  (c) When the peer closes after
    more than zero bytes without the terminator it responds 400.  (d) When
    the peer closes having sent nothing it responds nothing. *)
Theorem C9_header_reception :
  MAX_HEADER_SIZE = 65536
  /\ (forall net c pre last rest,
        client_recvs net = (RecvData <$> (pre ++ [last])) ++ rest ->
        Forall chunk_valid (pre ++ [last]) ->
        header_found (concat_all pre) = false ->
        size (concat_all pre) < MAX_HEADER_SIZE ->
        header_found (concat_all (pre ++ [last])) = true ->
        thread_fn ParsedRequest_parse net c
        = lookup_and_dispatch ParsedRequest_parse net (concat_all (pre ++ [last])) c
        /\ (forall c' trace,
              thread_fn ParsedRequest_parse net c = Done (c', trace) ->
              head trace = Some (CacheGet (concat_all (pre ++ [last]))))
        /\ (forall resp c1,
              get (concat_all (pre ++ [last])) c = Some (resp, c1) ->
              resp <> EmptyString ->
              thread_fn ParsedRequest_parse net c
              = Done (c1, [CacheGet (concat_all (pre ++ [last])); SendClient resp]))
        /\ (forall c1,
              get (concat_all (pre ++ [last])) c = Some (EmptyString, c1) ->
              ParsedRequest_parse (concat_all (pre ++ [last])) = None ->
              thread_fn ParsedRequest_parse net c
              = Done (c1, [CacheGet (concat_all (pre ++ [last])); SendError 400]))
        /\ (forall c1 request,
              get (concat_all (pre ++ [last])) c = Some (EmptyString, c1) ->
              ParsedRequest_parse (concat_all (pre ++ [last])) = Some request ->
              method request <> "GET" ->
              thread_fn ParsedRequest_parse net c
              = Done (c1, [CacheGet (concat_all (pre ++ [last])); SendError 501]))
        /\ (forall c1 request,
              get (concat_all (pre ++ [last])) c = Some (EmptyString, c1) ->
              ParsedRequest_parse (concat_all (pre ++ [last])) = Some request ->
              method request = "GET" ->
              thread_fn ParsedRequest_parse net c
              = match handle_request net request (concat_all (pre ++ [last])) c1 with
                | Done (ret, c2, trace) =>
                    if ret =? -1
                    then Done (c2, CacheGet (concat_all (pre ++ [last]))
                                     :: trace ++ [SendError 500])
                    else Done (c2, CacheGet (concat_all (pre ++ [last])) :: trace)
                | Blocked => Blocked
                | Undefined => Undefined
                end))
  /\ (forall net c pre last rest,
        client_recvs net = (RecvData <$> (pre ++ [last])) ++ rest ->
        Forall chunk_valid (pre ++ [last]) ->
        header_found (concat_all (pre ++ [last])) = false ->
        size (concat_all pre) < MAX_HEADER_SIZE ->
        MAX_HEADER_SIZE <= size (concat_all (pre ++ [last])) ->
        thread_fn ParsedRequest_parse net c = Done (c, [SendError 400]))
  /\ (forall net c pre last rest,
        client_recvs net = (RecvData <$> (pre ++ [last])) ++ RecvClosed :: rest ->
        Forall chunk_valid (pre ++ [last]) ->
        header_found (concat_all (pre ++ [last])) = false ->
        size (concat_all (pre ++ [last])) < MAX_HEADER_SIZE ->
        thread_fn ParsedRequest_parse net c = Done (c, [SendError 400]))
  /\ (forall net c rest,
        client_recvs net = RecvClosed :: rest ->
        thread_fn ParsedRequest_parse net c = Done (c, [])).
Proof.
  split; [done|]. split; [|split; [|split]].
  - intros net c pre last rest Hrecvs Hvalid Hnot Hlt Hfound.
    assert (thread_fn ParsedRequest_parse net c
            = lookup_and_dispatch ParsedRequest_parse net (concat_all (pre ++ [last])) c)
      as Heq.
    { unfold thread_fn. rewrite Hrecvs, receive_loop_before_last by done.
      by rewrite Hfound. }
    rewrite Heq. split; [done|]. split; [|split; [|split; [|split]]].
    + intros c' trace. apply lookup_and_dispatch_head.
    + intros resp c1 Hget Hne. unfold lookup_and_dispatch. rewrite Hget.
      by destruct (String.eqb_spec resp EmptyString).
    + intros c1 Hget Hparse. unfold lookup_and_dispatch. by rewrite Hget, Hparse.
    + intros c1 request Hget Hparse Hm. unfold lookup_and_dispatch.
      rewrite Hget, Hparse. simpl negb. cbv iota.
      by destruct (String.eqb_spec (method request) "GET").
    + intros c1 request Hget Hparse Hm. unfold lookup_and_dispatch.
      rewrite Hget, Hparse. simpl negb. cbv iota.
      by destruct (String.eqb_spec (method request) "GET").
  - intros net c pre last rest Hrecvs Hvalid Hnot Hlt Hge.
    pose proof Hnot as Hnot'. rewrite concat_all_snoc in Hnot'.
    apply header_not_found_prefix in Hnot'.
    unfold thread_fn. rewrite Hrecvs, receive_loop_before_last by done.
    rewrite Hnot, receive_loop_unfold.
    destruct (Z.ltb_spec (size (concat_all (pre ++ [last]))) MAX_HEADER_SIZE); [lia|].
    destruct (Z.ltb_spec 0 (size (concat_all (pre ++ [last])))); [done|].
    unfold MAX_HEADER_SIZE in *. lia.
  - intros net c pre last rest Hrecvs Hvalid Hnot Hlt.
    pose proof Hnot as Hnot'. rewrite concat_all_snoc in Hnot'.
    apply header_not_found_prefix in Hnot'.
    assert (0 < size (concat_all (pre ++ [last]))) as Hpos.
    { rewrite concat_all_snoc, size_append. pose proof (size_concat_nonneg pre).
      apply Forall_app in Hvalid as [_ Hlast].
      apply Forall_singleton in Hlast as [? ?]. lia. }
    assert (size (concat_all pre) < MAX_HEADER_SIZE) as Hlt'.
    { rewrite concat_all_snoc, size_append in Hlt. pose proof (size_nonneg last). lia. }
    unfold thread_fn. rewrite Hrecvs, receive_loop_before_last by done.
    rewrite Hnot, receive_loop_unfold. simpl recv_count.
    destruct (Z.ltb_spec (size (concat_all (pre ++ [last]))) MAX_HEADER_SIZE); [|lia].
    simpl. by destruct (Z.ltb_spec 0 (size (concat_all (pre ++ [last])))); [|lia].
  - intros net c rest Hrecvs. unfold thread_fn. by rewrite Hrecvs.
Qed.

End Reception.

Lemma C9_witness :
  let full := replicate 15 (Scenario.filler 4096) in
  let raw := concat_all (full ++ [Scenario.closing_chunk 4096]) in
  let net := Scenario.network_of (RecvData <$> (full ++ [Scenario.closing_chunk 4096])) [] in
  let warm := push_front raw Scenario.upstream_response 65576 cache in
  (size raw = 65536
   /\ thread_fn Scenario.parse net cache = lookup_and_dispatch Scenario.parse net raw cache
   /\ thread_fn Scenario.parse net warm
      = Done (warm, [CacheGet raw; SendClient Scenario.upstream_response])
   /\ thread_fn Scenario.parse net cache = Done (cache, [CacheGet raw; SendError 400]))
  /\ (size (concat_all ((full ++ [Scenario.filler 4095]) ++ [Scenario.filler 2])) = 65537
      /\ thread_fn Scenario.parse
           (Scenario.network_of
              (RecvData <$> ((full ++ [Scenario.filler 4095]) ++ [Scenario.filler 2])) [])
           cache
         = Done (cache, [SendError 400]))
  /\ thread_fn Scenario.parse
       (Scenario.network_of ((RecvData <$> ([] ++ [Scenario.filler 3])) ++ [RecvClosed]) [])
       cache
     = Done (cache, [SendError 400])
  /\ thread_fn Scenario.parse (Scenario.network_of [RecvClosed] []) cache
     = Done (cache, []).
Proof.
  intros full raw net warm.
  destruct (C9_header_reception Scenario.parse) as (_ & Ha & Hb & Hc & Hd).
  assert (Forall chunk_valid full) as Hfull.
  { apply Forall_replicate. split; vm_compute; done. }
  assert (forall c,
            thread_fn Scenario.parse net c = lookup_and_dispatch Scenario.parse net raw c
            /\ (forall resp c1,
                  get raw c = Some (resp, c1) -> resp <> EmptyString ->
                  thread_fn Scenario.parse net c
                  = Done (c1, [CacheGet raw; SendClient resp]))
            /\ (forall c1,
                  get raw c = Some (EmptyString, c1) -> Scenario.parse raw = None ->
                  thread_fn Scenario.parse net c
                  = Done (c1, [CacheGet raw; SendError 400]))) as Hlookup.
  { intros c.
    assert (client_recvs net
            = (RecvData <$> (full ++ [Scenario.closing_chunk 4096])) ++ []) as H1
      by exact (eq_sym (app_nil_r _)).
    assert (Forall chunk_valid (full ++ [Scenario.closing_chunk 4096])) as H2.
    { apply Forall_app. split; [exact Hfull|].
      apply Forall_singleton. split; vm_compute; done. }
    assert (header_found (concat_all full) = false) as H3 by (vm_compute; reflexivity).
    assert (size (concat_all full) < MAX_HEADER_SIZE) as H4 by (vm_compute; reflexivity).
    assert (header_found (concat_all (full ++ [Scenario.closing_chunk 4096])) = true)
      as H5 by (vm_compute; reflexivity).
    pose proof (Ha net c full (Scenario.closing_chunk 4096) [] H1 H2 H3 H4 H5)
      as (Heq & _ & Hhit & Hbad & _).
    exact (conj Heq (conj Hhit Hbad)). }
  split; [|split; [|split]].
  - split; [vm_compute; reflexivity|].
    split; [exact (proj1 (Hlookup cache))|]. split.
    + refine (proj1 (proj2 (Hlookup warm)) Scenario.upstream_response warm _ _).
      * exact (push_front_get raw Scenario.upstream_response 65576 cache).
      * vm_compute. discriminate.
    + refine (proj2 (proj2 (Hlookup cache)) cache _ _).
      * exact (get_miss raw cache (lookup_empty raw)).
      * vm_compute. reflexivity.
  - split; [vm_compute; reflexivity|].
    apply (Hb _ cache (full ++ [Scenario.filler 4095]) (Scenario.filler 2) []).
    + exact (eq_sym (app_nil_r _)).
    + apply Forall_app. split; [apply Forall_app; split; [done|]|];
        apply Forall_singleton; split; vm_compute; done.
    + vm_compute. reflexivity.
    + vm_compute. reflexivity.
    + vm_compute. done.
  - apply (Hc _ cache [] (Scenario.filler 3) []).
    + reflexivity.
    + apply Forall_singleton. split; vm_compute; done.
    + vm_compute. reflexivity.
    + vm_compute. reflexivity.
  - by apply (Hd _ cache []).
Defined.

(** *** The keys of the cache operations of a worker *)

Lemma relay_loop_trace responses sends temp trace temp' trace' :
  relay_loop responses sends temp trace = Done (temp', trace') ->
  forall a, a ∈ trace' -> a ∈ trace \/ cache_key_of a = None.
Proof.
  revert sends temp trace. induction responses as [|r responses IH];
    intros sends temp trace H a Ha; rewrite relay_loop_unfold in H; [done|].
  destruct (0 <? recv_count r); [|by injection H as _ <-; left].
  destruct sends as [|[] sends]; [done| |].
  - destruct (IH _ _ _ H a Ha) as [Hin|Hk]; [|by right].
    apply elem_of_app in Hin as [Hin|Hin]; [by left|].
    apply list_elem_of_singleton in Hin as ->. by right.
  - injection H as _ <-. apply elem_of_app in Ha as [Hin|Hin]; [by left|].
    apply list_elem_of_singleton in Hin as ->. by right.
Qed.

Lemma handle_request_keys net request url c ret c' trace :
  handle_request net request url c = Done (ret, c', trace) ->
  forall a k, a ∈ trace -> cache_key_of a = Some k -> k = url.
Proof.
  unfold handle_request. intros H a k Ha Hk.
  destruct (connect_ok net); simpl in H.
  - destruct (request_sent net); simpl in H.
    + destruct (relay_loop _ _ _ _) as [[temp tr]| |] eqn:Hloop; try done.
      destruct (put url temp c); [|done]. injection H as _ _ <-.
      apply elem_of_app in Ha as [Ha|Ha].
      * destruct (relay_loop_trace _ _ _ _ _ _ Hloop a Ha) as [Hin|Hnone]; [|congruence].
        repeat (apply elem_of_cons in Hin as [->|Hin]; [done|]).
        by apply elem_of_nil in Hin.
      * apply list_elem_of_singleton in Ha as ->. simpl in Hk. congruence.
    + injection H as _ _ <-.
      repeat (apply elem_of_cons in Ha as [->|Ha]; [done|]). by apply elem_of_nil in Ha.
  - injection H as _ _ <-.
    repeat (apply elem_of_cons in Ha as [->|Ha]; [done|]). by apply elem_of_nil in Ha.
Qed.

Lemma lookup_and_dispatch_keys parse net raw c c' trace :
  lookup_and_dispatch parse net raw c = Done (c', trace) ->
  forall a k, a ∈ trace -> cache_key_of a = Some k -> k = raw.
Proof.
  unfold lookup_and_dispatch. intros H a k Ha Hk.
  assert (forall e, a ∈ [CacheGet raw; e] -> cache_key_of e = None -> k = raw) as Hshort.
  { intros e Hin He. apply elem_of_cons in Hin as [->|Hin]; [simpl in Hk; congruence|].
    apply list_elem_of_singleton in Hin as ->. congruence. }
  destruct (get raw c) as [[resp c1]|]; [|done].
  destruct (negb (String.eqb resp EmptyString)).
  { injection H as _ <-. by apply (Hshort (SendClient resp)). }
  destruct (parse raw) as [request|]; [|injection H as _ <-; by apply (Hshort (SendError 400))].
  destruct (String.eqb (method request) "GET");
    [|injection H as _ <-; by apply (Hshort (SendError 501))].
  destruct (handle_request net request raw c1) as [[[ret c2] tr]| |] eqn:Hh; try done.
  assert (forall b, b ∈ tr -> cache_key_of b = Some k -> k = raw) as Htr
    by (intros b Hb Hbk; exact (handle_request_keys _ _ _ _ _ _ _ Hh b k Hb Hbk)).
  destruct (ret =? -1); injection H as _ <-.
  - apply elem_of_cons in Ha as [->|Ha]; [simpl in Hk; congruence|].
    apply elem_of_app in Ha as [Ha|Ha]; [by apply (Htr a)|].
    apply list_elem_of_singleton in Ha as ->. done.
  - apply elem_of_cons in Ha as [->|Ha]; [simpl in Hk; congruence|]. by apply (Htr a).
Qed.

(** When the header loop ends with [header_complete], the buffer is what
    the chunks received so far hold, and the last of them brought the
    terminator. *)
Lemma receive_loop_complete recvs raw0 total0 raw total :
  header_found raw0 = false ->
  receive_loop recvs raw0 total0 = Done (raw, total, true) ->
  exists chunks rest,
    chunks <> []
    /\ recvs = (RecvData <$> chunks) ++ rest
    /\ raw = raw0 +:+ concat_all chunks
    /\ header_found raw = true
    /\ header_found (raw0 +:+ concat_all (removelast chunks)) = false.
Proof.
  revert raw0 total0. induction recvs as [|r recvs IH]; intros raw0 total0 Hnot H;
    rewrite receive_loop_unfold in H; destruct (total0 <? MAX_HEADER_SIZE); try done.
  destruct (recv_count r <=? 0) eqn:Hr; [done|].
  destruct r as [s| |]; simpl in Hr; try done. simpl recv_bytes in H.
  destruct (header_found (raw0 +:+ s)) eqn:Hf.
  - injection H as <- _. exists [s], recvs. simpl.
    by rewrite !append_nil_r.
  - destruct (IH _ _ Hf H) as (chunks & rest & Hne & -> & -> & Hfound & Hbefore).
    exists (s :: chunks), rest. split; [done|]. split; [done|].
    simpl concat_all. rewrite <- append_assoc. split; [done|]. split; [done|].
    destruct chunks as [|s' chunks]; [done|].
    change (removelast (s :: s' :: chunks)) with (s :: removelast (s' :: chunks)).
    simpl concat_all. by rewrite <- append_assoc.
Qed.

(** C2, as the code has it: the key of every cache operation of a worker,
    the lookup ([get]) and the insertion by the relay ([put]) alike, is the
    whole buffer accumulated by the header loop: the bytes of all the
    chunks received up to and including the first chunk with which the
    buffer holds [\r\n\r\n].  The key begins with the request up to and
    including the terminator; what the last chunk holds past the terminator
    is part of the key. *)
Theorem C2_cache_key_is_received_buffer
    (parse : string -> option ParsedRequest) (net : network) (c c' : LRUCache)
    (trace : list action) :
  thread_fn parse net c = Done (c', trace) ->
  exists chunks rest,
    client_recvs net = (RecvData <$> chunks) ++ rest
    /\ header_found (concat_all (removelast chunks)) = false
    /\ forall a k,
         a ∈ trace -> cache_key_of a = Some k ->
         k = concat_all chunks
         /\ header_found k = true
         /\ exists tail, k = spec_cache_key k +:+ tail.
Proof.
  unfold thread_fn. intros H.
  destruct (receive_loop (client_recvs net) EmptyString 0) as [[[raw total] [|]]| |] eqn:Hloop;
    try done.
  - destruct (receive_loop_complete _ EmptyString _ _ _ eq_refl Hloop)
      as (chunks & rest & _ & Hrecvs & Hraw & Hfound & Hbefore).
    rewrite append_nil_l in Hraw, Hbefore.
    exists chunks, rest. split; [done|]. split; [done|].
    intros a k Ha Hk.
    rewrite (lookup_and_dispatch_keys _ _ _ _ _ _ H a k Ha Hk), <- Hraw.
    split; [done|]. split; [done|]. apply spec_cache_key_prefix.
  - exists [], (client_recvs net). split; [done|]. split; [done|].
    intros a k Ha Hk. exfalso.
    destruct (0 <? total); injection H as _ <-.
    + apply list_elem_of_singleton in Ha as ->. done.
    + by apply elem_of_nil in Ha.
Qed.

Lemma scenario_body_run :
  exists c',
    thread_fn Scenario.parse
      (Scenario.network_of [RecvData Scenario.request_with_body]
                           [RecvData Scenario.upstream_response; RecvClosed])
      cache
    = Done (c', Scenario.body_trace).
Proof. eexists. vm_compute. reflexivity. Qed.

Lemma C2_witness :
  exists chunks rest,
    client_recvs
      (Scenario.network_of [RecvData Scenario.request_with_body]
                           [RecvData Scenario.upstream_response; RecvClosed])
    = (RecvData <$> chunks) ++ rest
    /\ header_found (concat_all (removelast chunks)) = false
    /\ forall a k,
         a ∈ Scenario.body_trace -> cache_key_of a = Some k ->
         k = concat_all chunks
         /\ header_found k = true
         /\ exists tail, k = spec_cache_key k +:+ tail.
Proof.
  destruct scenario_body_run as [c' Hrun].
  exact (C2_cache_key_is_received_buffer _ _ _ _ _ Hrun).
Defined.

(** C2 as the specification states it fails: a request whose segment goes
    on after the blank line is looked up and inserted under all the bytes
    of the segment, not under the bytes up to and including the
    terminator. *)
Lemma C2_counterexample :
  (exists c',
     thread_fn Scenario.parse
       (Scenario.network_of [RecvData Scenario.request_with_body]
                            [RecvData Scenario.upstream_response; RecvClosed])
       cache
     = Done (c', [CacheGet Scenario.request_with_body;
                  Connect "example.invalid";
                  SendRemote (build_request Scenario.parsed_request);
                  SendClient Scenario.upstream_response;
                  CachePut Scenario.request_with_body Scenario.upstream_response]))
  /\ spec_cache_key Scenario.request_with_body = Scenario.raw_request
  /\ Scenario.request_with_body <> Scenario.raw_request.
Proof.
  split; [eexists; vm_compute; reflexivity|].
  split; [vm_compute; reflexivity|]. vm_compute. discriminate.
Qed.

(** *** Empty responses *)

(** A worker that finds nothing, or an empty value, under the key of a GET
    request whose upstream closes at once: it fetches and inserts the empty
    response. *)
Lemma dispatch_empty parse net raw request rest c :
  inv c ->
  get raw c = Some (EmptyString, c) ->
  parse raw = Some request ->
  method request = "GET" ->
  connect_ok net = true ->
  request_sent net = true ->
  responses net = RecvClosed :: rest ->
  exists c',
    put raw EmptyString c = Some c'
    /\ lookup_and_dispatch parse net raw c = Done (c', Scenario.fetch_empty raw request).
Proof.
  intros Hinv Hget Hparse Hmethod Hconn Hsent Hresp.
  destruct (inv_put raw EmptyString c Hinv) as (c' & Hput & _ & _).
  exists c'. split; [done|].
  unfold lookup_and_dispatch, handle_request.
  rewrite Hget, Hparse, Hmethod, Hconn, Hsent, Hresp. simpl negb. cbv iota.
  rewrite relay_loop_end by (simpl; lia). by rewrite Hput.
Qed.

(** C10: [get] answers a miss with the empty string, so an entry whose
    value is empty cannot be told from a miss.  For a GET request that is
    not in the cache and whose upstream closes before sending anything, the
    relay inserts the empty response under the request key; [get] of that
    key then still returns the empty string, and a worker that receives the
    same request again takes the miss branch and fetches upstream again. *)
Theorem C10_empty_value_is_a_miss
    (parse : string -> option ParsedRequest) (net : network) (raw : string)
    (request : ParsedRequest) (rest : list recv_result) (c : LRUCache) :
  reachable c ->
  cache_map c !! raw = None ->
  size raw <= capacity_bytes c ->
  parse raw = Some request ->
  method request = "GET" ->
  connect_ok net = true ->
  request_sent net = true ->
  responses net = RecvClosed :: rest ->
  get raw c = Some (EmptyString, c)
  /\ exists c1 c2 it,
       lookup_and_dispatch parse net raw c = Done (c1, Scenario.fetch_empty raw request)
       /\ cache_map c1 !! raw = Some it
       /\ (it, mkEntry raw EmptyString) ∈ lru_list c1
       /\ get raw c1 = Some (EmptyString, c1)
       /\ lookup_and_dispatch parse net raw c1
          = Done (c2, Scenario.fetch_empty raw request).
Proof.
  intros Hreach Hmiss Hfit Hparse Hmethod Hconn Hsent Hresp.
  apply reachable_inv in Hreach as [Hinv _].
  pose proof (get_miss raw c Hmiss) as Hget. split; [done|].
  destruct (dispatch_empty parse net raw request rest c) as (c1 & Hput & Hrun); try done.
  assert (size raw + size EmptyString <= capacity_bytes c) as Hfit'
    by (change (size EmptyString) with 0; lia).
  pose proof (storable_wrap raw EmptyString c Hinv Hfit') as Hw.
  destruct (put_stores raw EmptyString c Hinv) as (c0 & _ & _ & _ & Hput'); [lia|].
  destruct (inv_put raw EmptyString c Hinv) as (c1' & Hput'' & Hinv1 & _).
  assert (c1' = c1) as -> by congruence.
  rewrite Hput in Hput'. injection Hput' as Hc1.
  assert (get raw c1 = Some (EmptyString, c1)) as Hget1
    by (rewrite Hc1; apply push_front_get).
  destruct (dispatch_empty parse net raw request rest c1) as (c2 & _ & Hrun2); try done.
  eexists c1, c2, _. split; [done|].
  split; [rewrite Hc1; simpl; apply lookup_insert_eq|].
  split; [rewrite Hc1; simpl; apply list_elem_of_here|]. done.
Qed.

Lemma C10_witness :
  get Scenario.raw_request cache = Some (EmptyString, cache)
  /\ exists c1 c2 it,
       lookup_and_dispatch Scenario.parse (Scenario.network_of [] [RecvClosed])
         Scenario.raw_request cache
       = Done (c1, Scenario.fetch_empty Scenario.raw_request Scenario.parsed_request)
       /\ cache_map c1 !! Scenario.raw_request = Some it
       /\ (it, mkEntry Scenario.raw_request EmptyString) ∈ lru_list c1
       /\ get Scenario.raw_request c1 = Some (EmptyString, c1)
       /\ lookup_and_dispatch Scenario.parse (Scenario.network_of [] [RecvClosed])
            Scenario.raw_request c1
          = Done (c2, Scenario.fetch_empty Scenario.raw_request Scenario.parsed_request).
Proof.
  apply (C10_empty_value_is_a_miss Scenario.parse (Scenario.network_of [] [RecvClosed])
           Scenario.raw_request Scenario.parsed_request [] cache).
  - by exists MAX_CACHE_SIZE, [].
  - reflexivity.
  - vm_compute. discriminate.
  - vm_compute. reflexivity.
  - reflexivity.
  - reflexivity.
  - reflexivity.
  - reflexivity.
Defined.

End WorkerFacts.

(** ** More on the cache *)

Module CacheMore.

Lemma sum_sizes_nonneg l : 0 <= sum_sizes l.
Proof.
  induction l as [|[i e] l IH]; simpl; [done|].
  pose proof (size_nonneg (url e)). pose proof (size_nonneg (data e)). lia.
Qed.

Lemma exact_entry_bytes c i e l' :
  exact c -> lru_list c ≡ₚ (i, e) :: l' ->
  entry_bytes e = size (url e) + size (data e)
  /\ sum_sizes (lru_list c) = size (url e) + size (data e) + sum_sizes l'.
Proof.
  intros (Hcs & Hle & Hcap) Hp. pose proof (sum_sizes_perm _ _ Hp) as Hsum.
  simpl in Hsum. split; [|done].
  pose proof (sum_sizes_nonneg l'). pose proof (size_nonneg (url e)).
  pose proof (size_nonneg (data e)).
  apply wrap_small. unfold modulus. lia.
Qed.

Lemma exact_drop c i e l' :
  exact c -> lru_list c ≡ₚ (i, e) :: l' ->
  exact {| capacity_bytes := capacity_bytes c;
           current_size := wrap (current_size c - entry_bytes e);
           lru_list := l';
           cache_map := delete (url e) (cache_map c);
           next_node := next_node c |}.
Proof.
  intros Hex Hp. destruct (exact_entry_bytes c i e l' Hex Hp) as [Hb Hsum].
  destruct Hex as (Hcs & Hle & Hcap).
  pose proof (sum_sizes_nonneg l'). pose proof (size_nonneg (url e)).
  pose proof (size_nonneg (data e)).
  unfold exact. simpl. rewrite Hb, Hcs, Hsum.
  rewrite wrap_small by (unfold modulus; lia). lia.
Qed.

Lemma exact_remove_old k c c1 : exact c -> remove_old k c = Some c1 -> exact c1.
Proof.
  intros Hex. unfold remove_old.
  destruct (cache_map c !! k) as [it|]; [|by intros [= <-]].
  destruct (deref it (lru_list c)) as [e|] eqn:He; [|done]. intros [= <-].
  pose proof (exact_drop c it e _ Hex (deref_erase_perm _ _ _ He)) as Hd.
  unfold exact in *. simpl in *. done.
Qed.

Lemma exact_evict_body c : exact c -> exact (evict_body c).
Proof.
  intros Hex. unfold evict_body.
  destruct (last (lru_list c)) as [[i e]|] eqn:Hl; [|done].
  apply (exact_drop c i e); [done|]. rewrite (last_snoc_perm _ _ Hl) at 1.
  symmetry. apply Permutation_cons_append.
Qed.

Lemma exact_evict_loop fuel es c : exact c -> exact (evict_loop fuel es c).
Proof.
  revert c. induction fuel as [|fuel IH]; intros c Hex; simpl; [done|].
  destruct (evict_cond es c); [|done]. by apply IH, exact_evict_body.
Qed.

Lemma exact_put k v c c' :
  exact c -> size k + size v < modulus -> put k v c = Some c' -> exact c'.
Proof.
  intros Hex Hrep. unfold put.
  assert (wrap (size k + size v) = size k + size v) as Hw.
  { apply wrap_small. pose proof (size_nonneg k). pose proof (size_nonneg v). lia. }
  rewrite Hw. destruct (Z.ltb_spec (capacity_bytes c) (size k + size v)) as [|Hfit];
    [by intros [= <-]|].
  destruct (remove_old k c) as [c1|] eqn:Hrem; [|done]. intros [= <-].
  pose proof (exact_remove_old k c c1 Hex Hrem) as Hex1.
  pose proof (exact_evict_loop (length (lru_list c1)) (size k + size v) c1 Hex1) as Hex2.
  pose proof (evict_loop_exit (length (lru_list c1)) (size k + size v) c1 (le_n _)) as Hexit.
  assert (capacity_bytes (evict_loop (length (lru_list c1)) (size k + size v) c1)
          = capacity_bytes c) as Hcap
    by (by rewrite evict_loop_capacity, (remove_old_capacity k c c1)).
  set (c2 := evict_loop (length (lru_list c1)) (size k + size v) c1) in *.
  destruct Hex2 as (Hcs2 & Hle2 & Hcap2).
  pose proof (sum_sizes_nonneg (lru_list c2)) as Hnn.
  pose proof (size_nonneg k). pose proof (size_nonneg v).
  assert (current_size c2 + (size k + size v) <= capacity_bytes c2) as Hroom.
  { unfold evict_cond in Hexit. apply andb_false_iff in Hexit as [Hfit'|Hempty].
    - rewrite wrap_small in Hfit' by (unfold modulus; lia). lia.
    - apply negb_false_iff, bool_decide_eq_true in Hempty.
      rewrite Hcs2, Hempty. simpl. lia. }
  unfold exact. simpl. rewrite wrap_small by (unfold modulus; lia). lia.
Qed.

Lemma exact_get k c v c' : exact c -> get k c = Some (v, c') -> exact c'.
Proof.
  intros Hex. unfold get. destruct (cache_map c !! k) as [it|]; [|by intros [= _ <-]].
  destruct (deref it (lru_list c)) as [e|] eqn:He; [|done]. intros [= _ <-].
  pose proof (sum_sizes_perm _ _ (deref_erase_perm _ _ _ He)) as Hsum.
  unfold exact, splice_front in *. simpl in *. by rewrite <- Hsum.
Qed.

Lemma exact_run ops c c' :
  exact c -> Forall op_representable ops -> run ops c = Some c' -> exact c'.
Proof.
  revert c. induction ops as [|o ops IH]; intros c Hex Hrep; simpl; [by intros [= <-]|].
  apply Forall_cons in Hrep as [Ho Hrep].
  destruct (step o c) as [c1|] eqn:Hstep; [|done]. apply IH; [|done].
  destruct o as [k|k v]; simpl in Hstep.
  - destruct (get k c) as [[v c1']|] eqn:Hget; [|done]. injection Hstep as <-.
    by apply (exact_get k c v).
  - by apply (exact_put k v c).
Qed.

(** X1: for a capacity below [2^63] (the configured 200 MiB is) and
    operations on strings whose sizes fit [size_t], no unsigned arithmetic
    wraps around: after every sequence of operations [current_size] is
    exactly the number of key and value bytes held, and that number is at
    most the capacity. *)
Theorem X1_exact_byte_accounting (cap : Z) (ops : list op) (c : LRUCache) :
  0 <= cap < 2 ^ 63 ->
  Forall op_representable ops ->
  run ops (LRUCache_new cap) = Some c ->
  current_size c = sum_sizes (lru_list c)
  /\ sum_sizes (lru_list c) <= capacity_bytes c
  /\ capacity_bytes c = cap.
Proof.
  intros Hcap Hrep Hrun.
  assert (exact (LRUCache_new cap)) as Hex0.
  { unfold exact. simpl. rewrite wrap_small by (unfold modulus; lia). lia. }
  destruct (exact_run ops _ c Hex0 Hrep Hrun) as (Hcs & Hle & _).
  split; [done|]. split; [done|].
  rewrite (run_capacity _ _ _ Hrun). simpl. apply wrap_small. unfold modulus. lia.
Qed.

Lemma X1_witness :
  let c := push_front "b" "2" 2 (push_front "a" "1" 2 (LRUCache_new 4)) in
  current_size c = sum_sizes (lru_list c)
  /\ sum_sizes (lru_list c) <= capacity_bytes c
  /\ capacity_bytes c = 4.
Proof.
  apply (X1_exact_byte_accounting 4 [Put "a" "1"; Put "b" "2"]).
  - lia.
  - repeat constructor; vm_compute; done.
  - vm_compute. reflexivity.
Defined.

(** *** The index and the list *)

(** X2: on every state the cache can be in, the index holds exactly the
    keys of the recency list, each key once: the keys of the list are
    distinct, the domain of the index is their set, the index has as many
    bindings as the list has nodes, and the iterator bound to a key denotes
    a node of the list with that key. *)
Theorem X2_index_matches_list (c : LRUCache) :
  reachable c ->
  NoDup (keys c)
  /\ dom (cache_map c) = (list_to_set (keys c) : gset string)
  /\ base.size (cache_map c) = length (lru_list c)
  /\ forall k it, cache_map c !! k = Some it ->
       exists v, deref it (lru_list c) = Some (mkEntry k v).
Proof.
  intros Hreach. apply reachable_inv in Hreach as [Hinv _].
  pose proof (inv_keys_nodup c Hinv) as Hnd.
  assert (dom (cache_map c) = (list_to_set (keys c) : gset string)) as Hdom.
  { apply set_eq. intros k. rewrite elem_of_dom, elem_of_list_to_set.
    symmetry. by apply inv_key_in_index. }
  split; [done|]. split; [done|]. split.
  - rewrite <- (size_dom (cache_map c)), Hdom, size_list_to_set by done.
    unfold keys, node_keys. by rewrite length_fmap.
  - intros k it Hk. destruct (inv_lookup_deref _ _ _ Hinv Hk) as ([u d] & He & Hu).
    simpl in Hu. subst u. by exists d.
Qed.

Lemma X2_witness :
  let c := push_front "b" "2" 2 (push_front "a" "1" 2 (LRUCache_new 4)) in
  NoDup (keys c)
  /\ dom (cache_map c) = (list_to_set (keys c) : gset string)
  /\ base.size (cache_map c) = length (lru_list c)
  /\ forall k it, cache_map c !! k = Some it ->
       exists v, deref it (lru_list c) = Some (mkEntry k v).
Proof.
  apply (X2_index_matches_list
           (push_front "b" "2" 2 (push_front "a" "1" 2 (LRUCache_new 4)))).
  exists 4, [Put "a" "1"; Put "b" "2"]. vm_compute. reflexivity.
Defined.

(** *** Round trip *)

(** X3: on every state the cache can be in, a storable entry that is [put]
    is what the next [get] of its key returns, and that [get] leaves the
    state as the [put] left it. *)
Theorem X3_put_then_get (c : LRUCache) (k v : string) :
  reachable c ->
  size k + size v <= capacity_bytes c ->
  exists c', put k v c = Some c' /\ get k c' = Some (v, c').
Proof.
  intros Hreach Hfit. apply reachable_inv in Hreach as [Hinv _].
  pose proof (storable_wrap k v c Hinv Hfit) as Hw.
  destruct (put_stores k v c Hinv) as (c1 & _ & _ & _ & Hput); [lia|].
  eexists. split; [exact Hput|]. apply push_front_get.
Qed.

Lemma X3_witness :
  exists c', put "a" "10" (push_front "a" "1" 2 (LRUCache_new 4)) = Some c'
             /\ get "a" c' = Some ("10", c').
Proof.
  apply (X3_put_then_get (push_front "a" "1" 2 (LRUCache_new 4)) "a" "10").
  - exists 4, [Put "a" "1"]. vm_compute. reflexivity.
  - vm_compute. done.
Defined.

(** *** What [get] changes *)

Lemma deref_erase_ne it it' l : it' <> it -> deref it' (erase it l) = deref it' l.
Proof.
  intros Hne. induction l as [|[i e] l IH]; simpl; [done|].
  destruct (decide (i = it)) as [->|Hi]; simpl.
  - by rewrite decide_False.
  - by rewrite IH.
Qed.

Lemma deref_splice it it' e l :
  deref it l = Some e -> deref it' (splice_front it e l) = deref it' l.
Proof.
  intros He. unfold splice_front. simpl.
  destruct (decide (it = it')) as [<-|Hne]; [done|]. by apply deref_erase_ne.
Qed.

(** X4: a [get] changes nothing but the recency order: the index,
    [current_size] and the capacity are the same afterwards, the entries are
    the same up to their order, and every later [get] returns what it would
    have returned before. *)
Theorem X4_get_only_reorders (k : string) (c : LRUCache) (v : string) (c' : LRUCache) :
  get k c = Some (v, c') ->
  cache_map c' = cache_map c
  /\ current_size c' = current_size c
  /\ capacity_bytes c' = capacity_bytes c
  /\ entries c' ≡ₚ entries c
  /\ forall k', fst <$> get k' c' = fst <$> get k' c.
Proof.
  unfold get. destruct (cache_map c !! k) as [it|] eqn:Hk.
  - destruct (deref it (lru_list c)) as [e|] eqn:He; [|done]. intros [= _ <-].
    cbn [cache_map lru_list current_size capacity_bytes].
    split; [done|]. split; [done|]. split; [done|]. split.
    + unfold entries, splice_front. cbn [lru_list]. symmetry.
      by apply (fmap_Permutation snd), deref_erase_perm.
    + intros k'. unfold get. cbn [cache_map lru_list].
      destruct (cache_map c !! k') as [it'|]; [|done].
      rewrite (deref_splice it it' e _ He). by destruct (deref it' (lru_list c)).
  - by intros [= _ <-].
Qed.

Lemma X4_witness :
  let c := push_front "b" "2" 2 (push_front "a" "1" 2 (LRUCache_new 4)) in
  let c' := {| capacity_bytes := 4; current_size := 4;
               lru_list := [(0%nat, mkEntry "a" "1"); (1%nat, mkEntry "b" "2")];
               cache_map := cache_map c; next_node := 2%nat |} in
  cache_map c' = cache_map c
  /\ current_size c' = current_size c
  /\ capacity_bytes c' = capacity_bytes c
  /\ entries c' ≡ₚ entries c
  /\ forall k', fst <$> get k' c' = fst <$> get k' c.
Proof.
  intros c c'. apply (X4_get_only_reorders "a" c "1" c'). vm_compute. reflexivity.
Defined.

Lemma filter_absent (k : string) (l : list string) :
  k ∉ l -> filter (fun k' => k' <> k) l = l.
Proof.
  induction l as [|x l IH]; intros Hk; [done|].
  apply not_elem_of_cons in Hk as [Hne Hk].
  rewrite filter_cons_True by done. by rewrite IH.
Qed.

Lemma node_keys_erase it e l :
  NoDup (node_keys l) -> deref it l = Some e ->
  node_keys (erase it l) = filter (fun k' => k' <> url e) (node_keys l).
Proof.
  induction l as [|[i e0] l IH]; simpl; [done|]. intros Hnd He.
  change (node_keys ((i, e0) :: l)) with (url e0 :: node_keys l) in *.
  apply NoDup_cons in Hnd as [Hni Hnd].
  destruct (decide (i = it)) as [->|Hne].
  - injection He as ->. rewrite filter_cons_False by (intros H; by apply H).
    by rewrite filter_absent.
  - assert (url e0 <> url e) as Hk.
    { intros Heq. apply Hni. rewrite Heq. unfold node_keys.
      apply list_elem_of_fmap. exists (it, e). split; [done|]. by apply deref_elem. }
    rewrite filter_cons_True by done.
    change (node_keys ((i, e0) :: erase it l)) with (url e0 :: node_keys (erase it l)).
    by rewrite IH.
Qed.

(** X5: on every state the cache can be in, a [get] of a key that is absent
    leaves the state as it is, and a [get] of a key that is present moves
    that key to the front of the recency order and keeps the order of all
    the other keys. *)
Theorem X5_hit_moves_key_to_front (c : LRUCache) (k v : string) (c' : LRUCache) :
  reachable c ->
  get k c = Some (v, c') ->
  (k ∉ keys c -> c' = c /\ v = EmptyString)
  /\ (k ∈ keys c -> keys c' = k :: filter (fun k' => k' <> k) (keys c)).
Proof.
  intros Hreach Hget. apply reachable_inv in Hreach as [Hinv _]. split.
  - intros Hk. rewrite (inv_key_in_index c k Hinv) in Hk.
    destruct (cache_map c !! k) eqn:Hl; [by destruct Hk; eauto|].
    rewrite (get_miss k c Hl) in Hget. by injection Hget as <- <-.
  - intros Hk. apply (inv_key_in_index c k Hinv) in Hk as [it Hit].
    destruct (inv_lookup_deref _ _ _ Hinv Hit) as (e & He & Hu).
    unfold get in Hget. rewrite Hit, He in Hget. injection Hget as _ <-.
    unfold keys, splice_front. simpl lru_list.
    change (node_keys ((it, e) :: erase it (lru_list c)))
      with (url e :: node_keys (erase it (lru_list c))).
    rewrite (node_keys_erase it e _ (inv_keys_nodup c Hinv) He). by rewrite Hu.
Qed.

Lemma X5_witness :
  let c := push_front "c" "3" 2 (push_front "b" "2" 2 (push_front "a" "1" 2 (LRUCache_new 9))) in
  let c' := {| capacity_bytes := 9; current_size := 6;
               lru_list := [(0%nat, mkEntry "a" "1"); (2%nat, mkEntry "c" "3");
                            (1%nat, mkEntry "b" "2")];
               cache_map := cache_map c; next_node := 3%nat |} in
  ("a" ∉ keys c -> c' = c /\ "1" = EmptyString)
  /\ ("a" ∈ keys c -> keys c' = "a" :: filter (fun k' => k' <> "a") (keys c)).
Proof.
  intros c c'. apply (X5_hit_moves_key_to_front c "a" "1" c').
  - exists 9, [Put "a" "1"; Put "b" "2"; Put "c" "3"]. vm_compute. reflexivity.
  - vm_compute. reflexivity.
Defined.

(** *** What [put] changes *)

Lemma get_node_value c it e :
  inv c -> (it, e) ∈ lru_list c -> fst <$> get (url e) c = Some (data e).
Proof.
  intros Hinv Hin.
  assert (cache_map c !! url e = Some it) as Hk by (apply (inv_index _ Hinv); eauto).
  destruct (get_hit _ _ _ Hinv Hk) as (e' & Hin' & _ & ->). simpl.
  apply (elem_deref _ _ _ (inv_ids _ Hinv)) in Hin, Hin'. congruence.
Qed.

(** The list after a [put] that stores: the new node, then nodes of the
    old list in their old order. *)
Lemma put_list k v c c' :
  inv c -> put k v c = Some c' ->
  c' = c
  \/ exists it l2, lru_list c' = (it, mkEntry k v) :: l2 /\ l2 `sublist_of` lru_list c.
Proof.
  intros Hinv. unfold put. destruct (_ <? _); [intros [= <-]; by left|].
  destruct (remove_old k c) as [c1|] eqn:Hrem; [|done]. intros [= <-]. right.
  destruct (evict_loop_iter (length (lru_list c1)) (wrap (size k + size v)) c1)
    as (n & ev & _ & _ & Hsplit & _).
  eexists _, _. split; [done|].
  transitivity (lru_list c1); [|by apply (remove_old_sublist k)].
  rewrite Hsplit at 2. by apply sublist_inserts_r.
Qed.

(** X6: on every state the cache can be in, a [put] of a key [k] neither
    adds nor alters any other key: every key other than [k] that is in the
    cache afterwards was in it before, and [get] returns for it the value
    it returned before. *)
Theorem X6_put_keeps_other_values (c : LRUCache) (k v : string) (c' : LRUCache)
    (k' : string) :
  reachable c ->
  put k v c = Some c' ->
  k' <> k ->
  k' ∈ keys c' ->
  k' ∈ keys c /\ fst <$> get k' c' = fst <$> get k' c.
Proof.
  intros Hreach Hput Hne Hin. apply reachable_inv in Hreach as [Hinv _].
  destruct (inv_put k v c Hinv) as (c'' & Hput' & Hinv' & _).
  assert (c'' = c') as -> by congruence.
  destruct (put_list k v c c' Hinv Hput) as [->|(it & l2 & Hl & Hsub)]; [done|].
  unfold keys, node_keys in Hin. apply list_elem_of_fmap in Hin as ([it' e'] & Hk' & Hin').
  simpl in Hk'. subst k'.
  assert ((it', e') ∈ lru_list c) as Hold.
  { rewrite Hl in Hin'. apply elem_of_cons in Hin' as [Heq|Hin'].
    - injection Heq as -> ->. done.
    - by apply (elem_of_sublist l2). }
  split.
  - unfold keys, node_keys. apply list_elem_of_fmap. by exists (it', e').
  - by rewrite (get_node_value c' it' e' Hinv' Hin'), (get_node_value c it' e' Hinv Hold).
Qed.

Lemma X6_witness :
  let c := push_front "b" "2" 2 (push_front "a" "1" 2 (LRUCache_new 4)) in
  let c' := push_front "c" "3" 2 (evict_body c) in
  "b" ∈ keys c /\ fst <$> get "b" c' = fst <$> get "b" c.
Proof.
  intros c c'. apply (X6_put_keeps_other_values c "c" "3" c' "b").
  - exists 4, [Put "a" "1"; Put "b" "2"]. vm_compute. reflexivity.
  - vm_compute. reflexivity.
  - discriminate.
  - vm_compute. apply list_elem_of_further, list_elem_of_here.
Defined.

(** X7: on every state the cache can be in, a [put] of a key that is not in
    the cache, with room for the entry
    ([current_size + len(k) + len(v) <= capacity_bytes]), evicts nothing:
    the new state is the old one with the entry pushed at the front. *)
Theorem X7_put_with_room_evicts_nothing (c : LRUCache) (k v : string) :
  reachable c ->
  cache_map c !! k = None ->
  current_size c + (size k + size v) <= capacity_bytes c ->
  put k v c = Some (push_front k v (size k + size v) c).
Proof.
  intros Hreach Hnew Hroom. apply reachable_inv in Hreach as [Hinv _].
  assert (0 <= current_size c) as Hcs by (rewrite (inv_size _ Hinv); apply wrap_range).
  pose proof (inv_cap _ Hinv) as Hcap.
  pose proof (size_nonneg k). pose proof (size_nonneg v).
  assert (wrap (size k + size v) = size k + size v) as Hw by (apply wrap_small; lia).
  unfold put, remove_old. rewrite Hw, Hnew.
  destruct (Z.ltb_spec (capacity_bytes c) (size k + size v)); [lia|].
  assert (evict_cond (size k + size v) c = false) as Hcond.
  { unfold evict_cond. rewrite wrap_small by lia.
    by destruct (Z.ltb_spec (capacity_bytes c) (current_size c + (size k + size v))); [lia|]. }
  do 2 f_equal. destruct (length (lru_list c)); simpl; [done|]. by rewrite Hcond.
Qed.

Lemma X7_witness :
  put "b" "2" (push_front "a" "1" 2 (LRUCache_new 4))
  = Some (push_front "b" "2" (size "b" + size "2") (push_front "a" "1" 2 (LRUCache_new 4))).
Proof.
  apply (X7_put_with_room_evicts_nothing (push_front "a" "1" 2 (LRUCache_new 4)) "b" "2").
  - exists 4, [Put "a" "1"]. vm_compute. reflexivity.
  - vm_compute. reflexivity.
  - vm_compute. done.
Defined.

End CacheMore.

(** ** The byte I/O helpers and the error reply *)

Module IOFacts.

Import WorkerFacts.

Example format_d_samples :
  format_d 400 = "400" /\ format_d 0 = "0" /\ format_d (-17) = "-17"
  /\ format_d 2147483647 = "2147483647" /\ format_d (-2147483648) = "-2147483648".
Proof. vm_compute. done. Qed.

Lemma send_all_unfold answers buffer len total_sent wire :
  send_all answers buffer len total_sent wire =
  if total_sent <? len then
    match answers with
    | [] => Blocked
    | r :: answers' =>
        if send_return r (len - total_sent) =? -1 then
          match r with
          | SendFail EINTR => send_all answers' buffer len total_sent wire
          | _ => Done (-1, wire)
          end
        else
          send_all answers' buffer len
                   (wrap (total_sent + send_return r (len - total_sent)))
                   (wire +:+ substring (Z.to_nat total_sent)
                               (Z.to_nat (send_return r (len - total_sent))) buffer)
    end
  else Done (0, wire).
Proof. by destruct answers. Qed.

(** *** Substrings *)

Lemma substring_split a b s :
  substring 0 a s +:+ substring a b s = substring 0 (a + b) s.
Proof.
  revert s. induction a as [|a IH]; intros s.
  - by rewrite substring_zero_length.
  - destruct s as [|ch s]; simpl.
    + by destruct b.
    + by rewrite append_cons, IH.
Qed.

Lemma substring_whole n s : (String.length s <= n)%nat -> substring 0 n s = s.
Proof.
  revert n. induction s as [|ch s IH]; intros n Hn.
  - by destruct n.
  - destruct n as [|n]; simpl in *; [lia|]. rewrite IH; [done|lia].
Qed.

Lemma substring_length n s :
  (n <= String.length s)%nat -> String.length (substring 0 n s) = n.
Proof.
  revert s. induction n as [|n IH]; intros s Hn.
  - by rewrite substring_zero_length.
  - destruct s as [|ch s]; simpl in *; [lia|]. rewrite IH; lia.
Qed.

(** *** [send_all] *)

Lemma send_return_room room remaining :
  0 < remaining ->
  0 <= send_return (SendRoom room) remaining <= remaining.
Proof. intros H. simpl. lia. Qed.

(** The loop keeps [wire] equal to the first [total_sent] bytes of the
    buffer. *)
Lemma send_all_prefix answers buffer total_sent ret wire :
  size buffer < modulus ->
  0 <= total_sent <= size buffer ->
  send_all answers buffer (size buffer) total_sent
           (substring 0 (Z.to_nat total_sent) buffer) = Done (ret, wire) ->
  (ret = 0 /\ wire = buffer)
  \/ (ret = -1 /\ exists n, (n < String.length buffer)%nat /\ wire = substring 0 n buffer).
Proof.
  intros Hrep. revert total_sent.
  induction answers as [|r answers IH]; intros total_sent Htot H;
    rewrite send_all_unfold in H;
    destruct (Z.ltb_spec total_sent (size buffer)) as [Hlt|Hge].
  - done.
  - injection H as <- <-. left. split; [done|].
    apply substring_whole. unfold size in *. lia.
  - destruct r as [room|[|]].
    + pose proof (send_return_room room (size buffer - total_sent) ltac:(lia)) as Hs.
      set (sent := send_return (SendRoom room) (size buffer - total_sent)) in *.
      destruct (Z.eqb_spec sent (-1)); [lia|].
      rewrite wrap_small in H by (unfold modulus in *; lia).
      rewrite substring_split, <- Z2Nat.inj_add in H by lia.
      apply (IH (total_sent + sent)); [lia|done].
    + simpl in H. by apply (IH total_sent).
    + simpl in H. injection H as <- <-. right. split; [done|].
      exists (Z.to_nat total_sent). split; [unfold size in *; lia|done].
  - injection H as <- <-. left. split; [done|].
    apply substring_whole. unfold size in *. lia.
Qed.

(** X8: [send_all] on a buffer and its size returns 0 or -1.  When it
    returns 0 the bytes that went out are the buffer, each byte once and in
    order; when it returns -1 they are a beginning of the buffer that lacks
    at least one byte. *)
Theorem X8_send_all_outcome (answers : list send_result) (buffer : string)
    (ret : Z) (wire : string) :
  size buffer < modulus ->
  send_all answers buffer (size buffer) 0 EmptyString = Done (ret, wire) ->
  (ret = 0 /\ wire = buffer)
  \/ (ret = -1 /\ exists tail, buffer = wire +:+ tail /\ 0 < size tail).
Proof.
  intros Hrep H. pose proof (size_nonneg buffer).
  destruct (send_all_prefix answers buffer 0 ret wire Hrep ltac:(lia)) as [?|(-> & n & Hn & ->)].
  - by rewrite substring_zero_length.
  - by left.
  - right. split; [done|]. destruct (substring_is_prefix n buffer) as [tail Ht].
    exists tail. split; [done|].
    assert (size buffer = size (substring 0 n buffer) + size tail) as Hsz
      by (by rewrite <- size_append, <- Ht).
    unfold size in Hsz at 2. rewrite substring_length in Hsz by lia.
    unfold size in Hsz at 1. lia.
Qed.

Lemma X8_witness :
  (0 = 0 /\ "hello" = "hello")
  \/ (0 = -1 /\ exists tail, "hello" = "hello" +:+ tail /\ 0 < size tail).
Proof.
  apply (X8_send_all_outcome [SendRoom 2; SendFail EINTR; SendRoom 10] "hello" 0 "hello").
  - vm_compute. reflexivity.
  - vm_compute. reflexivity.
Defined.

(** X9: a [send] that fails with [EINTR] is retried and leaves no trace:
    [send_all] behaves as if the interrupted calls had not happened. *)
Theorem X9_send_all_retries_interrupts (answers : list send_result) (buffer : string)
    (len total_sent : Z) (wire : string) :
  send_all (List.filter (fun r => negb (is_interrupt r)) answers) buffer len total_sent wire
  = send_all answers buffer len total_sent wire.
Proof.
  revert total_sent wire. induction answers as [|r answers IH]; intros total_sent wire;
    [done|].
  rewrite (send_all_unfold (r :: answers)).
  destruct r as [room|[|]]; simpl List.filter.
  - rewrite send_all_unfold. destruct (total_sent <? len); [|done].
    destruct (_ =? -1); [done|]. apply IH.
  - rewrite IH. simpl. rewrite (send_all_unfold answers).
    by destruct (total_sent <? len).
  - rewrite send_all_unfold. by destruct (total_sent <? len).
Qed.

Lemma total_room_nonneg answers : 0 <= total_room answers.
Proof. induction answers as [|[room|e] answers IH]; simpl; lia. Qed.

Lemma send_all_enough_room answers buffer total_sent :
  size buffer < modulus ->
  0 <= total_sent <= size buffer ->
  Forall (fun r => is_hard_failure r = false) answers ->
  size buffer - total_sent <= total_room answers ->
  send_all answers buffer (size buffer) total_sent
           (substring 0 (Z.to_nat total_sent) buffer) = Done (0, buffer).
Proof.
  intros Hrep. revert total_sent.
  induction answers as [|r answers IH]; intros total_sent Htot Hsoft Hroom;
    rewrite send_all_unfold;
    destruct (Z.ltb_spec total_sent (size buffer)) as [Hlt|Hge];
    try (f_equal; f_equal; apply substring_whole; unfold size in *; lia).
  - simpl in Hroom. lia.
  - apply Forall_cons in Hsoft as [Hr Hsoft]. destruct r as [room|[|]]; [| |done].
    + pose proof (send_return_room room (size buffer - total_sent) ltac:(lia)) as Hs.
      simpl total_room in Hroom.
      assert (send_return (SendRoom room) (size buffer - total_sent)
              = Z.min (Z.of_nat room) (size buffer - total_sent)) as Hdef by done.
      set (sent := send_return (SendRoom room) (size buffer - total_sent)) in *.
      destruct (Z.eqb_spec sent (-1)); [lia|].
      rewrite wrap_small by (unfold modulus in *; lia).
      rewrite substring_split, <- Z2Nat.inj_add by lia.
      apply IH; [lia|done|]. pose proof (total_room_nonneg answers). lia.
    + simpl. apply IH; [done|done|]. simpl in Hroom. lia.
Qed.

(** X10: when no [send] fails for another reason than [EINTR] and the room
    the socket offers over the calls is at least the size of the buffer,
    [send_all] returns 0 after writing the whole buffer, however the room is
    split over the calls. *)
Theorem X10_send_all_completes (answers : list send_result) (buffer : string) :
  size buffer < modulus ->
  Forall (fun r => is_hard_failure r = false) answers ->
  size buffer <= total_room answers ->
  send_all answers buffer (size buffer) 0 EmptyString = Done (0, buffer).
Proof.
  intros Hrep Hsoft Hroom. pose proof (size_nonneg buffer).
  rewrite <- (send_all_enough_room answers buffer 0); try done; try lia.
  by rewrite substring_zero_length.
Qed.

Lemma X10_witness :
  send_all [SendRoom 1; SendFail EINTR; SendRoom 0; SendRoom 3; SendRoom 9] "hello"
           (size "hello") 0 EmptyString
  = Done (0, "hello").
Proof.
  apply (X10_send_all_completes
           [SendRoom 1; SendFail EINTR; SendRoom 0; SendRoom 3; SendRoom 9] "hello").
  - vm_compute. reflexivity.
  - repeat constructor.
  - vm_compute. done.
Defined.

(** *** [connectRemoteServer] *)

(** X11: [connectRemoteServer] returns the descriptor of the socket exactly
    when [socket], [gethostbyname] and [connect] all succeed, and -1
    otherwise; when it returns -1 no descriptor it opened is left open, and
    when it succeeds the only descriptor left open is the one it returns. *)
Theorem X11_connect_leaks_no_descriptor (sys : connect_answers) :
  let '(ret, events) := connectRemoteServer sys in
  (0 <= ret <-> 0 <= socket_ret sys /\ host_found sys = true /\ 0 <= connect_ret sys)
  /\ (0 <= ret -> ret = socket_ret sys /\ open_fds events [] = [ret])
  /\ (~ 0 <= ret -> ret = -1 /\ open_fds events [] = []).
Proof.
  unfold connectRemoteServer.
  destruct (Z.ltb_spec (socket_ret sys) 0) as [Hs|Hs].
  { split; [split; [lia|intros (? & _); lia]|]. split; [lia|done]. }
  assert (open_fds [FdOpen (socket_ret sys); FdClose (socket_ret sys)] [] = []) as Hclosed
    by (simpl; by rewrite Z.eqb_refl).
  destruct (host_found sys); simpl negb; cbv iota.
  - destruct (Z.ltb_spec (connect_ret sys) 0) as [Hc|Hc].
    + split; [split; [lia|intros (_ & _ & ?); lia]|]. split; [lia|done].
    + split; [done|]. split; [done|lia].
  - split; [split; [lia|intros (_ & ? & _); done]|]. split; [lia|done].
Qed.

(** *** [sendErrorMessage] *)

Lemma digits_length fuel n acc :
  (String.length (digits fuel n acc) <= fuel + String.length acc)%nat.
Proof.
  revert n acc. induction fuel as [|fuel IH]; intros n acc; simpl; [lia|].
  destruct (n / 10 =? 0); simpl; [lia|].
  etransitivity; [apply IH|]. simpl. lia.
Qed.

Lemma format_d_length z : (String.length (format_d z) <= 11)%nat.
Proof.
  unfold format_d. destruct (z <? 0); simpl.
  - pose proof (digits_length 10 (- z) EmptyString). simpl in *. lia.
  - pose proof (digits_length 10 z EmptyString). simpl in *. lia.
Qed.

Lemma status_text_length status_code : (String.length (status_text status_code) <= 25)%nat.
Proof.
  unfold status_text.
  repeat match goal with
         | |- context [match ?x with _ => _ end] => destruct x
         end; simpl; lia.
Qed.

Lemma error_text_length status_code timebuf :
  (String.length (error_text status_code timebuf)
   <= 96 + String.length timebuf)%nat.
Proof.
  unfold error_text, CRLF. rewrite !length_append.
  pose proof (format_d_length status_code). pose proof (status_text_length status_code).
  simpl. lia.
Qed.

(** The terminator is found when it is in what follows. *)
Lemma index_cons t ch s :
  index 0 t (String ch s)
  = if String.prefix t (String ch s) then Some 0%nat
    else match index 0 t s with
         | Some n => Some (S n)
         | None => None
         end.
Proof. reflexivity. Qed.

Lemma header_found_append_r a b : header_found b = true -> header_found (a +:+ b) = true.
Proof.
  intros Hb. induction a as [|ch a IH]; [done|].
  rewrite append_cons. unfold header_found in *. rewrite index_cons.
  destruct (String.prefix terminator (String ch (a +:+ b))); [done|].
  by destruct (index 0 terminator (a +:+ b)).
Qed.

Lemma error_text_complete status_code timebuf :
  header_found (error_text status_code timebuf) = true.
Proof. unfold error_text. do 11 apply header_found_append_r. done. Qed.

(** X12: for every status code and every time of at most 127 bytes (the
    buffer [strftime] fills has 128), the reply of [sendErrorMessage] fits
    the 1024-byte buffer untruncated and ends its headers with the blank
    line; [sendErrorMessage] returns 1 whether or not the reply could be
    sent, and what went out is the reply or a beginning of it. *)
Theorem X12_error_reply (answers : list send_result) (status_code : Z)
    (timebuf : string) (ret : Z) (wire : string) :
  (String.length timebuf < 128)%nat ->
  sendErrorMessage answers status_code timebuf = Done (ret, wire) ->
  snprintf 1024 (error_text status_code timebuf) = error_text status_code timebuf
  /\ header_found (error_text status_code timebuf) = true
  /\ ret = 1
  /\ exists tail, error_text status_code timebuf = wire +:+ tail.
Proof.
  intros Htime. unfold sendErrorMessage.
  pose proof (error_text_length status_code timebuf) as Hlen.
  assert (snprintf 1024 (error_text status_code timebuf) = error_text status_code timebuf)
    as Hfit by (unfold snprintf; apply substring_whole; lia).
  rewrite Hfit. set (text := error_text status_code timebuf) in *.
  destruct (send_all answers text (size text) 0 EmptyString) as [[r w]| |] eqn:Hsend;
    try done.
  intros [= <- <-]. split; [done|]. split; [apply error_text_complete|]. split; [done|].
  assert (size text < modulus) as Hrep by (unfold size, modulus; lia).
  pose proof (size_nonneg text).
  destruct (send_all_prefix answers text 0 r w Hrep ltac:(lia)) as [[_ ->]|(_ & n & _ & ->)].
  - by rewrite substring_zero_length.
  - exists EmptyString. by rewrite append_nil_r.
  - apply substring_is_prefix.
Qed.

Lemma X12_witness :
  snprintf 1024 (error_text 400 "Sun, 01 Nov 2026 19:06:00 GMT")
  = error_text 400 "Sun, 01 Nov 2026 19:06:00 GMT"
  /\ header_found (error_text 400 "Sun, 01 Nov 2026 19:06:00 GMT") = true
  /\ 1 = 1
  /\ exists tail,
       error_text 400 "Sun, 01 Nov 2026 19:06:00 GMT"
       = error_text 400 "Sun, 01 Nov 2026 19:06:00 GMT" +:+ tail.
Proof.
  apply (X12_error_reply [SendRoom 4096] 400 "Sun, 01 Nov 2026 19:06:00 GMT" 1
           (error_text 400 "Sun, 01 Nov 2026 19:06:00 GMT")).
  - vm_compute. lia.
  - vm_compute. reflexivity.
Defined.

End IOFacts.

(** ** More on the relay *)

Module RelayMore.

(** What the relay loop adds: the chunks it forwarded and accumulated, then
    at most one chunk whose forwarding failed. *)
Lemma relay_loop_shape responses sends temp trace temp' trace' :
  relay_loop responses sends temp trace = Done (temp', trace') ->
  exists forwarded failed,
    temp' = temp +:+ concat_all forwarded
    /\ trace' = trace ++ (SendClient <$> forwarded) ++ (SendClient <$> failed)
    /\ (length failed <= 1)%nat.
Proof.
  revert sends temp trace. induction responses as [|r responses IH];
    intros sends temp trace H; rewrite relay_loop_unfold in H; [done|].
  destruct (0 <? recv_count r).
  - destruct sends as [|[] sends]; [done| |].
    + destruct (IH _ _ _ H) as (fw & fl & -> & -> & Hlen).
      exists (recv_bytes r :: fw), fl. simpl.
      by rewrite append_assoc, <- app_assoc.
    + injection H as <- <-. exists [], [recv_bytes r]. simpl.
      rewrite append_nil_r. repeat split; lia.
  - injection H as <- <-. exists [], []. simpl.
    rewrite append_nil_r, app_nil_r. repeat split; lia.
Qed.

Lemma relay_loop_defined responses sends temp trace :
  relay_loop responses sends temp trace <> Undefined.
Proof.
  revert sends temp trace. induction responses as [|r responses IH];
    intros sends temp trace; rewrite relay_loop_unfold; [done|].
  destruct (0 <? recv_count r); [|done].
  destruct sends as [|[] sends]; [done| |done]. apply IH.
Qed.

(** The three ways [handle_request] returns. *)
Lemma handle_request_cases net request url c ret c' trace :
  handle_request net request url c = Done (ret, c', trace) ->
  (ret = -1 /\ c' = c /\ connect_ok net = false
   /\ trace = [Connect (host request)])
  \/ (ret = -1 /\ c' = c /\ connect_ok net = true /\ request_sent net = false
      /\ trace = [Connect (host request); SendRemote (build_request request)])
  \/ (ret = 0 /\ connect_ok net = true /\ request_sent net = true
      /\ exists forwarded failed,
           put url (concat_all forwarded) c = Some c'
           /\ trace = [Connect (host request); SendRemote (build_request request)]
                        ++ (SendClient <$> forwarded) ++ (SendClient <$> failed)
                        ++ [CachePut url (concat_all forwarded)]
           /\ (length failed <= 1)%nat).
Proof.
  unfold handle_request. destruct (connect_ok net); simpl.
  - destruct (request_sent net); simpl.
    + destruct (relay_loop _ _ _ _) as [[temp tr]| |] eqn:Hloop; try done.
      destruct (relay_loop_shape _ _ _ _ _ _ Hloop) as (fw & fl & Htemp & -> & Hlen).
      rewrite append_nil_l in Htemp. subst temp.
      destruct (put url (concat_all fw) c) as [c2|] eqn:Hput; [|done].
      intros [= <- <- <-]. right. right. split; [done|]. split; [done|]. split; [done|].
      exists fw, fl. split; [done|]. split; [|done]. by rewrite <- !app_assoc.
    + intros [= <- <- <-]. right. left. done.
  - intros [= <- <- <-]. by left.
Qed.

(** X13: [handle_request] returns 0 or -1, and -1 exactly when the upstream
    connection could not be made or the request could not be sent; in that
    case the cache is as before, nothing has been sent to the client and
    nothing has been inserted. *)
Theorem X13_relay_failure_is_early (net : network) (request : ParsedRequest)
    (url : string) (c : LRUCache) (ret : Z) (c' : LRUCache) (trace : list action) :
  handle_request net request url c = Done (ret, c', trace) ->
  (ret = 0 \/ ret = -1)
  /\ (ret = -1 <-> connect_ok net = false \/ request_sent net = false)
  /\ (ret = -1 ->
      c' = c
      /\ (forall bytes, SendClient bytes ∉ trace)
      /\ (forall k v, CachePut k v ∉ trace)).
Proof.
  intros H. destruct (handle_request_cases _ _ _ _ _ _ _ H)
    as [(-> & -> & Hc & ->)|[(-> & -> & Hc & Hs & ->)|(-> & Hc & Hs & _)]].
  - split; [by right|]. split; [split; auto|]. intros _. split; [done|].
    split; intros; intros Hin; repeat (apply elem_of_cons in Hin as [?|Hin]; [done|]);
      by apply elem_of_nil in Hin.
  - split; [by right|]. split; [split; auto|]. intros _. split; [done|].
    split; intros; intros Hin; repeat (apply elem_of_cons in Hin as [?|Hin]; [done|]);
      by apply elem_of_nil in Hin.
  - split; [by left|]. split; [|done]. split; [done|]. intros [?|?]; congruence.
Qed.

Lemma X13_witness :
  (-1 = 0 \/ -1 = -1)
  /\ (-1 = -1 <->
      connect_ok (mkNetwork [] false true [] []) = false
      \/ request_sent (mkNetwork [] false true [] []) = false)
  /\ (-1 = -1 ->
      cache = cache
      /\ (forall bytes, SendClient bytes ∉ [Connect "example.invalid"])
      /\ (forall k v, CachePut k v ∉ [Connect "example.invalid"])).
Proof.
  apply (X13_relay_failure_is_early (mkNetwork [] false true [] [])
           Scenario.parsed_request Scenario.raw_request cache (-1) cache
           [Connect "example.invalid"]).
  reflexivity.
Defined.

(** X14: when [send_all] to the client fails for a chunk, the relay stops
    without reading the upstream further, inserts under the request key the
    bytes of the chunks forwarded before, and returns 0. *)
Theorem X14_client_failure_caches_forwarded (net : network) (request : ParsedRequest)
    (url : string) (c : LRUCache) (chunks : list string) (failed : string)
    (rest : list recv_result) (sends : list bool) :
  reachable c ->
  connect_ok net = true ->
  request_sent net = true ->
  Forall (fun s => 0 < size s) chunks ->
  0 < size failed ->
  responses net = (RecvData <$> chunks) ++ RecvData failed :: rest ->
  client_sends net = replicate (length chunks) true ++ false :: sends ->
  exists c',
    put url (concat_all chunks) c = Some c'
    /\ handle_request net request url c
       = Done (0, c',
               [Connect (host request); SendRemote (build_request request)]
                 ++ (SendClient <$> chunks)
                 ++ [SendClient failed; CachePut url (concat_all chunks)]).
Proof.
  intros Hreach Hconn Hsent Hpos Hfailed Hresp Hsends.
  apply reachable_inv in Hreach as [Hinv _].
  destruct (inv_put url (concat_all chunks) c Hinv) as (c' & Hput & _ & _).
  exists c'. split; [done|].
  unfold handle_request. rewrite Hconn, Hsent, Hresp, Hsends. simpl negb. cbv iota.
  rewrite (relay_loop_chunks chunks _ _ _ _ Hpos), relay_loop_unfold.
  simpl recv_count. destruct (Z.ltb_spec 0 (size failed)); [|lia].
  simpl recv_bytes. rewrite append_nil_l, Hput. by rewrite <- !app_assoc.
Qed.

Lemma X14_witness :
  exists c',
    put Scenario.raw_request (concat_all ["HTTP/1.1 200 OK"]) cache = Some c'
    /\ handle_request
         (mkNetwork [] true true
            [RecvData "HTTP/1.1 200 OK"; RecvData "more"; RecvClosed] [true; false])
         Scenario.parsed_request Scenario.raw_request cache
       = Done (0, c',
               [Connect (host Scenario.parsed_request);
                SendRemote (build_request Scenario.parsed_request)]
                 ++ (SendClient <$> ["HTTP/1.1 200 OK"])
                 ++ [SendClient "more";
                     CachePut Scenario.raw_request (concat_all ["HTTP/1.1 200 OK"])]).
Proof.
  apply (X14_client_failure_caches_forwarded
           (mkNetwork [] true true
              [RecvData "HTTP/1.1 200 OK"; RecvData "more"; RecvClosed] [true; false])
           Scenario.parsed_request Scenario.raw_request cache
           ["HTTP/1.1 200 OK"] "more" [RecvClosed] []).
  - by exists MAX_CACHE_SIZE, [].
  - reflexivity.
  - reflexivity.
  - repeat constructor.
  - reflexivity.
  - reflexivity.
  - reflexivity.
Defined.

(** The relay loop against the answers it consumed: the chunks forwarded
    are those whose [send_all] succeeded, and the loop ended on the first
    chunk whose [send_all] failed or on the first [recv] without data. *)
Lemma relay_loop_delivery responses sends temp trace temp' trace' :
  relay_loop responses sends temp trace = Done (temp', trace') ->
  exists forwarded failed unread unsent,
    responses = (RecvData <$> forwarded) ++ (RecvData <$> failed) ++ unread
    /\ sends = replicate (length forwarded) true ++ replicate (length failed) false ++ unsent
    /\ Forall (fun s => 0 < size s) (forwarded ++ failed)
    /\ (length failed <= 1)%nat
    /\ (failed = [] -> exists r unread', unread = r :: unread' /\ recv_count r <= 0)
    /\ temp' = temp +:+ concat_all forwarded
    /\ trace' = trace ++ (SendClient <$> forwarded) ++ (SendClient <$> failed).
Proof.
  revert sends temp trace. induction responses as [|r responses IH];
    intros sends temp trace H; rewrite relay_loop_unfold in H; [done|].
  destruct (Z.ltb_spec 0 (recv_count r)) as [Hpos|Hnone].
  - assert (exists s, r = RecvData s) as [s ->]
      by (destruct r as [s| |]; simpl in Hpos; [by exists s|lia|lia]).
    simpl in Hpos. simpl recv_bytes in H.
    destruct sends as [|[] sends]; [done| |].
    + destruct (IH _ _ _ H) as (fw & fl & ur & us & -> & -> & Hall & Hlen & Hend & -> & ->).
      exists (s :: fw), fl, ur, us. simpl.
      split; [done|]. split; [done|]. split; [by apply Forall_cons|].
      split; [done|]. split; [done|].
      by rewrite append_assoc, <- app_assoc.
    + injection H as <- <-. exists [], [s], responses, sends. simpl.
      rewrite append_nil_r. split; [done|]. split; [done|].
      split; [by apply Forall_singleton|]. split; [lia|]. split; [done|]. done.
  - injection H as <- <-. exists [], [], (r :: responses), sends. simpl.
    rewrite append_nil_r, app_nil_r. split; [done|]. split; [done|].
    split; [done|]. split; [lia|]. split; [|done]. intros _. by exists r, responses.
Qed.

(** X15: whenever [handle_request] returns 0, the upstream answers it read
    are the chunks whose [send_all] to the client succeeded, followed by at
    most one chunk whose [send_all] failed ([client_sends] answers true for
    the former and false for the latter); with no failed chunk the loop
    ended on a [recv] that returned 0 or -1.  The value inserted under the
    request key is the bytes of the chunks that were delivered, in order,
    without the chunk that failed, and the insertion is the last thing
    done. *)
Theorem X15_cached_is_forwarded (net : network) (request : ParsedRequest)
    (url : string) (c c' : LRUCache) (trace : list action) :
  handle_request net request url c = Done (0, c', trace) ->
  exists forwarded failed unread unsent,
    responses net = (RecvData <$> forwarded) ++ (RecvData <$> failed) ++ unread
    /\ client_sends net
       = replicate (length forwarded) true ++ replicate (length failed) false ++ unsent
    /\ Forall (fun s => 0 < size s) (forwarded ++ failed)
    /\ (length failed <= 1)%nat
    /\ (failed = [] -> exists r unread', unread = r :: unread' /\ recv_count r <= 0)
    /\ put url (concat_all forwarded) c = Some c'
    /\ trace
       = [Connect (host request); SendRemote (build_request request)]
           ++ (SendClient <$> forwarded) ++ (SendClient <$> failed)
           ++ [CachePut url (concat_all forwarded)].
Proof.
  unfold handle_request. destruct (connect_ok net); simpl; [|done].
  destruct (request_sent net); simpl; [|done].
  destruct (relay_loop _ _ _ _) as [[temp tr]| |] eqn:Hloop; try done.
  destruct (relay_loop_delivery _ _ _ _ _ _ Hloop)
    as (fw & fl & ur & us & Hresp & Hsends & Hall & Hlen & Hend & Htemp & ->).
  rewrite append_nil_l in Htemp. subst temp.
  destruct (put url (concat_all fw) c) as [c2|] eqn:Hput; [|done].
  intros [= <- <-]. exists fw, fl, ur, us.
  split; [done|]. split; [done|]. split; [done|]. split; [done|]. split; [done|].
  split; [done|]. by rewrite <- !app_assoc.
Qed.

Lemma scenario_relay_run :
  exists c',
    handle_request
      (Scenario.network_of [] [RecvData Scenario.upstream_response; RecvClosed])
      Scenario.parsed_request Scenario.raw_request cache
    = Done (0, c',
            [Connect "example.invalid";
             SendRemote (build_request Scenario.parsed_request);
             SendClient Scenario.upstream_response;
             CachePut Scenario.raw_request Scenario.upstream_response]).
Proof. eexists. vm_compute. reflexivity. Qed.

Lemma X15_witness :
  exists c' forwarded failed unread unsent,
    responses (Scenario.network_of [] [RecvData Scenario.upstream_response; RecvClosed]) = (RecvData <$> forwarded) ++ (RecvData <$> failed) ++ unread
    /\ client_sends (Scenario.network_of [] [RecvData Scenario.upstream_response; RecvClosed])
       = replicate (length forwarded) true ++ replicate (length failed) false ++ unsent
    /\ Forall (fun s => 0 < size s) (forwarded ++ failed)
    /\ (length failed <= 1)%nat
    /\ (failed = [] -> exists r unread', unread = r :: unread' /\ recv_count r <= 0)
    /\ put Scenario.raw_request (concat_all forwarded) cache = Some c'
    /\ [Connect "example.invalid";
        SendRemote (build_request Scenario.parsed_request);
        SendClient Scenario.upstream_response;
        CachePut Scenario.raw_request Scenario.upstream_response]
       = [Connect (host Scenario.parsed_request); SendRemote (build_request Scenario.parsed_request)]
           ++ (SendClient <$> forwarded) ++ (SendClient <$> failed)
           ++ [CachePut Scenario.raw_request (concat_all forwarded)].
Proof.
  destruct scenario_relay_run as [c' Hrun]. exists c'.
  exact (X15_cached_is_forwarded _ _ _ _ _ _ Hrun).
Defined.

End RelayMore.

Import RelayMore.

(** ** More on the worker *)

Module WorkerMore.

Import WorkerFacts.

Section Dispatch.

Variable parse : string -> option ParsedRequest.

(** The five ways the worker ends after the headers are complete. *)
Lemma lookup_and_dispatch_cases net raw c c' trace :
  lookup_and_dispatch parse net raw c = Done (c', trace) ->
  exists resp c1,
    get raw c = Some (resp, c1)
    /\ ((resp <> EmptyString /\ c' = c1 /\ trace = [CacheGet raw; SendClient resp])
        \/ (resp = EmptyString /\ parse raw = None /\ c' = c1
            /\ trace = [CacheGet raw; SendError 400])
        \/ (resp = EmptyString
            /\ exists request,
                 parse raw = Some request /\ method request <> "GET" /\ c' = c1
                 /\ trace = [CacheGet raw; SendError 501])
        \/ (resp = EmptyString
            /\ exists request tr,
                 parse raw = Some request /\ method request = "GET"
                 /\ handle_request net request raw c1 = Done (-1, c', tr)
                 /\ trace = CacheGet raw :: tr ++ [SendError 500])
        \/ (resp = EmptyString
            /\ exists request tr,
                 parse raw = Some request /\ method request = "GET"
                 /\ handle_request net request raw c1 = Done (0, c', tr)
                 /\ trace = CacheGet raw :: tr)).
Proof.
  unfold lookup_and_dispatch. destruct (get raw c) as [[resp c1]|]; [|done].
  intros H. exists resp, c1. split; [done|].
  destruct (String.eqb_spec resp EmptyString) as [->|Hne]; simpl in H.
  - right. destruct (parse raw) as [request|].
    + destruct (String.eqb_spec (method request) "GET") as [Hm|Hm].
      * destruct (handle_request net request raw c1) as [[[ret c2] tr]| |] eqn:Hh; try done.
        destruct (handle_request_cases _ _ _ _ _ _ _ Hh)
          as [(-> & _)|[(-> & _)|(-> & _)]]; simpl in H; injection H as <- <-.
        -- right. right. left. split; [done|]. by exists request, tr.
        -- right. right. left. split; [done|]. by exists request, tr.
        -- right. right. right. split; [done|]. by exists request, tr.
      * injection H as <- <-. right. left. split; [done|]. by exists request.
    + injection H as <- <-. by left.
  - injection H as <- <-. by left.
Qed.

Lemma thread_fn_cases net c c' trace :
  thread_fn parse net c = Done (c', trace) ->
  (exists raw total,
     receive_loop (client_recvs net) EmptyString 0 = Done (raw, total, true)
     /\ lookup_and_dispatch parse net raw c = Done (c', trace))
  \/ (c' = c /\ (trace = [SendError 400] \/ trace = [])).
Proof.
  unfold thread_fn.
  destruct (receive_loop (client_recvs net) EmptyString 0) as [[[raw total] [|]]| |];
    try done.
  - intros H. left. by exists raw, total.
  - destruct (0 <? total); intros [= <- <-]; right; auto.
Qed.

Lemma get_entries k c v c' :
  get k c = Some (v, c') -> entries c' ≡ₚ entries c /\ current_size c' = current_size c.
Proof.
  unfold get. destruct (cache_map c !! k) as [it|]; [|by intros [= _ <-]].
  destruct (deref it (lru_list c)) as [e|] eqn:He; [|done]. intros [= _ <-].
  split; [|done]. unfold entries, splice_front. cbn [lru_list]. symmetry.
  by apply (fmap_Permutation snd), deref_erase_perm.
Qed.

(** X16: after a worker has relayed, on a miss, a non-empty response that
    fits the cache to the end of the upstream stream, a worker that
    receives the same request bytes answers with exactly those response
    bytes from the cache and makes no upstream connection, whatever the
    network would answer. *)
Theorem X16_warm_hit (net : network) (raw : string) (request : ParsedRequest)
    (chunks : list string) (rest : list recv_result) (sends : list bool)
    (c : LRUCache) :
  reachable c ->
  cache_map c !! raw = None ->
  parse raw = Some request ->
  method request = "GET" ->
  connect_ok net = true ->
  request_sent net = true ->
  chunks <> [] ->
  Forall (fun s => 0 < size s) chunks ->
  responses net = (RecvData <$> chunks) ++ RecvClosed :: rest ->
  client_sends net = replicate (length chunks) true ++ sends ->
  size raw + size (concat_all chunks) <= capacity_bytes c ->
  exists c1,
    lookup_and_dispatch parse net raw c
    = Done (c1, [CacheGet raw; Connect (host request);
                 SendRemote (build_request request)]
                  ++ (SendClient <$> chunks)
                  ++ [CachePut raw (concat_all chunks)])
    /\ forall net',
         lookup_and_dispatch parse net' raw c1
         = Done (c1, [CacheGet raw; SendClient (concat_all chunks)]).
Proof.
  intros Hreach Hmiss Hparse Hmethod Hconn Hsent Hne Hpos Hresp Hsends Hfit.
  apply reachable_inv in Hreach as [Hinv _].
  pose proof (storable_wrap raw _ c Hinv Hfit) as Hw.
  destruct (put_stores raw (concat_all chunks) c Hinv) as (c0 & _ & _ & _ & Hput); [lia|].
  eexists. split.
  - unfold lookup_and_dispatch, handle_request.
    rewrite (get_miss raw c Hmiss), Hparse, Hmethod, Hconn, Hsent, Hresp, Hsends.
    simpl negb. cbv iota. simpl String.eqb. cbv iota.
    rewrite (relay_loop_chunks chunks _ _ _ _ Hpos).
    rewrite relay_loop_end by (simpl; lia).
    rewrite append_nil_l, Hput. change (0 =? -1) with false. cbv iota.
    reflexivity.
  - intros net'. unfold lookup_and_dispatch. rewrite push_front_get.
    assert (concat_all chunks <> EmptyString) as Hresp_ne.
    { destruct chunks as [|s chunks]; [done|]. apply Forall_cons in Hpos as [Hs _].
      simpl. destruct s; [vm_compute in Hs; done|done]. }
    by destruct (String.eqb_spec (concat_all chunks) EmptyString).
Qed.

End Dispatch.

Lemma X16_witness :
  exists c1,
    lookup_and_dispatch Scenario.parse
      (Scenario.network_of [] [RecvData Scenario.upstream_response; RecvClosed])
      Scenario.raw_request cache
    = Done (c1, [CacheGet Scenario.raw_request;
                 Connect (host Scenario.parsed_request);
                 SendRemote (build_request Scenario.parsed_request)]
                  ++ (SendClient <$> [Scenario.upstream_response])
                  ++ [CachePut Scenario.raw_request
                        (concat_all [Scenario.upstream_response])])
    /\ forall net',
         lookup_and_dispatch Scenario.parse net' Scenario.raw_request c1
         = Done (c1, [CacheGet Scenario.raw_request;
                      SendClient (concat_all [Scenario.upstream_response])]).
Proof.
  apply (X16_warm_hit Scenario.parse
           (Scenario.network_of [] [RecvData Scenario.upstream_response; RecvClosed])
           Scenario.raw_request Scenario.parsed_request
           [Scenario.upstream_response] [] [true] cache).
  - by exists MAX_CACHE_SIZE, [].
  - reflexivity.
  - vm_compute. reflexivity.
  - reflexivity.
  - reflexivity.
  - reflexivity.
  - done.
  - repeat constructor.
  - reflexivity.
  - reflexivity.
  - vm_compute. done.
Defined.

Section Discipline.

Variable parse : string -> option ParsedRequest.

(** X17: a worker sends at most the error replies 400, 500 and 501, and an
    error reply is the last thing it does; when it sends one, no response
    byte has been sent to the client and nothing has been inserted into the
    cache, whose entries and [current_size] are those from before. *)
Theorem X17_error_reply_discipline (net : network) (c c' : LRUCache)
    (trace : list action) (status : Z) :
  thread_fn parse net c = Done (c', trace) ->
  SendError status ∈ trace ->
  (status = 400 \/ status = 500 \/ status = 501)
  /\ last trace = Some (SendError status)
  /\ (forall bytes, SendClient bytes ∉ trace)
  /\ (forall k v, CachePut k v ∉ trace)
  /\ entries c' ≡ₚ entries c
  /\ current_size c' = current_size c.
Proof.
  intros Hrun Hin.
  assert (forall (l : list action) a, a ∈ l -> forall P : Prop,
            (Forall (fun b => b = a -> P) l) -> P) as Hcase.
  { intros l a Ha P Hall. rewrite Forall_forall in Hall. by apply (Hall a). }
  destruct (thread_fn_cases parse _ _ _ _ Hrun)
    as [(raw & total & _ & Hd)|(-> & [-> | ->])].
  - destruct (lookup_and_dispatch_cases parse _ _ _ _ _ Hd) as (resp & c1 & Hget & Hcases).
    destruct (get_entries _ _ _ _ Hget) as [Hent Hcs].
    destruct Hcases as [(_ & -> & ->)|[(_ & _ & -> & ->)|[(_ & request & _ & _ & -> & ->)
      |[(_ & request & tr & _ & _ & Hh & ->)|(_ & request & tr & _ & _ & Hh & ->)]]]].
    + exfalso. repeat (apply elem_of_cons in Hin as [?|Hin]; [done|]).
      by apply elem_of_nil in Hin.
    + repeat (apply elem_of_cons in Hin as [Heq|Hin]; [try done|]);
        [|by apply elem_of_nil in Hin].
      injection Heq as ->. split; [auto|]. split; [done|].
      split; [|split; [|done]]; intros; intros Hx;
        repeat (apply elem_of_cons in Hx as [?|Hx]; [done|]); by apply elem_of_nil in Hx.
    + repeat (apply elem_of_cons in Hin as [Heq|Hin]; [try done|]);
        [|by apply elem_of_nil in Hin].
      injection Heq as ->. split; [auto|]. split; [done|].
      split; [|split; [|done]]; intros; intros Hx;
        repeat (apply elem_of_cons in Hx as [?|Hx]; [done|]); by apply elem_of_nil in Hx.
    + destruct (handle_request_cases _ _ _ _ _ _ _ Hh)
        as [(_ & -> & _ & ->)|[(_ & -> & _ & _ & ->)|(? & _)]]; [| |done].
      * repeat (apply elem_of_cons in Hin as [Heq|Hin]; [try done|]);
          [|by apply elem_of_nil in Hin].
        injection Heq as ->. split; [auto|]. split; [done|].
        split; [|split; [|done]]; intros; intros Hx;
          repeat (apply elem_of_cons in Hx as [?|Hx]; [done|]); by apply elem_of_nil in Hx.
      * repeat (apply elem_of_cons in Hin as [Heq|Hin]; [try done|]);
          [|by apply elem_of_nil in Hin].
        injection Heq as ->. split; [auto|]. split; [done|].
        split; [|split; [|done]]; intros; intros Hx;
          repeat (apply elem_of_cons in Hx as [?|Hx]; [done|]); by apply elem_of_nil in Hx.
    + exfalso.
      destruct (handle_request_cases _ _ _ _ _ _ _ Hh)
        as [(? & _)|[(? & _)|(_ & _ & _ & fw & fl & _ & -> & _)]]; [done|done|].
      apply elem_of_cons in Hin as [?|Hin]; [done|].
      repeat (apply elem_of_app in Hin as [Hin|Hin]);
        try (apply list_elem_of_fmap in Hin as (? & ? & _); done).
      * repeat (apply elem_of_cons in Hin as [?|Hin]; [done|]). by apply elem_of_nil in Hin.
      * apply list_elem_of_singleton in Hin. done.
  - apply list_elem_of_singleton in Hin. injection Hin as ->.
    split; [auto|]. split; [done|].
    split; [|split; [|done]]; intros; intros Hx;
      apply list_elem_of_singleton in Hx; done.
  - by apply elem_of_nil in Hin.
Qed.

(** X18: a worker inserts into the cache only for a request that the
    parsing library accepted with method GET, after the upstream connection
    was made and the request sent; the key is the received request, it was
    looked up before, and no error reply is sent. *)
Theorem X18_insertion_needs_relayed_get (net : network) (c c' : LRUCache)
    (trace : list action) (k v : string) :
  thread_fn parse net c = Done (c', trace) ->
  CachePut k v ∈ trace ->
  (exists request, parse k = Some request /\ method request = "GET")
  /\ connect_ok net = true
  /\ request_sent net = true
  /\ head trace = Some (CacheGet k)
  /\ last trace = Some (CachePut k v)
  /\ forall status, SendError status ∉ trace.
Proof.
  intros Hrun Hin.
  destruct (thread_fn_cases parse _ _ _ _ Hrun)
    as [(raw & total & _ & Hd)|(-> & [-> | ->])].
  - destruct (lookup_and_dispatch_cases parse _ _ _ _ _ Hd) as (resp & c1 & Hget & Hcases).
    destruct Hcases as [(_ & -> & ->)|[(_ & _ & -> & ->)|[(_ & request & _ & _ & -> & ->)
      |[(_ & request & tr & _ & _ & Hh & ->)|(_ & request & tr & Hp & Hm & Hh & ->)]]]];
      try (exfalso; repeat (apply elem_of_cons in Hin as [?|Hin]; [done|]);
           by apply elem_of_nil in Hin).
    + exfalso. destruct (handle_request_cases _ _ _ _ _ _ _ Hh)
        as [(_ & -> & _ & ->)|[(_ & -> & _ & _ & ->)|(? & _)]]; [| |done];
        repeat (apply elem_of_cons in Hin as [?|Hin]; [done|]); by apply elem_of_nil in Hin.
    + destruct (handle_request_cases _ _ _ _ _ _ _ Hh)
        as [(? & _)|[(? & _)|(_ & Hc & Hs & fw & fl & _ & -> & _)]]; [done|done|].
      assert (CachePut k v = CachePut raw (concat_all fw)) as Heq.
      { apply elem_of_cons in Hin as [?|Hin]; [done|].
        repeat (apply elem_of_app in Hin as [Hin|Hin]);
          try (apply list_elem_of_fmap in Hin as (? & ? & _); done).
        - repeat (apply elem_of_cons in Hin as [?|Hin]; [done|]). by apply elem_of_nil in Hin.
        - by apply list_elem_of_singleton in Hin. }
      injection Heq as -> ->.
      split; [by exists request|]. split; [done|]. split; [done|]. split; [done|]. split.
      * rewrite app_comm_cons, !app_assoc. apply last_snoc.
      * intros status Hx. apply elem_of_cons in Hx as [?|Hx]; [done|].
        repeat (apply elem_of_app in Hx as [Hx|Hx]);
          try (apply list_elem_of_fmap in Hx as (? & ? & _); done).
        -- repeat (apply elem_of_cons in Hx as [?|Hx]; [done|]). by apply elem_of_nil in Hx.
        -- by apply list_elem_of_singleton in Hx.
  - by apply list_elem_of_singleton in Hin.
  - by apply elem_of_nil in Hin.
Qed.

(** X20: a worker started on a state the cache can be in never dereferences
    a dangling iterator, and it leaves the cache in such a state again. *)
Theorem X20_worker_keeps_cache_sound (net : network) (c : LRUCache) :
  reachable c ->
  thread_fn parse net c <> Undefined
  /\ forall c' trace, thread_fn parse net c = Done (c', trace) -> reachable c'.
Proof.
  intros Hreach. pose proof (reachable_inv c Hreach) as [Hinv _]. split.
  - unfold thread_fn.
    destruct (receive_loop (client_recvs net) EmptyString 0) as [[[raw total] [|]]| |] eqn:Hl.
    + unfold lookup_and_dispatch.
      destruct (inv_get raw c Hinv) as (resp & c1 & Hget & Hinv1 & _). rewrite Hget.
      destruct (negb _); [done|]. destruct (parse raw) as [request|]; [|done].
      destruct (String.eqb _ _); [|done].
      unfold handle_request. destruct (connect_ok net); simpl; [|done].
      destruct (request_sent net); simpl; [|done].
      destruct (relay_loop _ _ _ _) as [[temp tr]| |] eqn:Hloop; [|done|].
      * destruct (inv_put raw temp c1 Hinv1) as (c2 & -> & _). done.
      * by apply relay_loop_defined in Hloop.
    + by destruct (0 <? total).
    + done.
    + exfalso. revert Hl. generalize (client_recvs net) EmptyString 0.
      intros recvs. induction recvs as [|r recvs IH]; intros raw total;
        rewrite receive_loop_unfold; destruct (total <? MAX_HEADER_SIZE); try done.
      destruct (recv_count r <=? 0); [done|]. destruct (header_found _); [done|]. apply IH.
  - intros c' trace Hrun.
    destruct (thread_fn_cases parse _ _ _ _ Hrun)
      as [(raw & total & _ & Hd)|(-> & _)]; [|done].
    destruct (lookup_and_dispatch_cases parse _ _ _ _ _ Hd) as (resp & c1 & Hget & Hcases).
    assert (reachable c1) as Hr1.
    { apply (reachable_step (Get raw) c); [done|]. simpl. by rewrite Hget. }
    destruct Hcases as [(_ & -> & _)|[(_ & _ & -> & _)|[(_ & request & _ & _ & -> & _)
      |[(_ & request & tr & _ & _ & Hh & _)|(_ & request & tr & _ & _ & Hh & _)]]]];
      try done.
    + by destruct (handle_request_cases _ _ _ _ _ _ _ Hh)
        as [(_ & -> & _)|[(_ & -> & _)|(? & _)]].
    + destruct (handle_request_cases _ _ _ _ _ _ _ Hh)
        as [(? & _)|[(? & _)|(_ & _ & _ & fw & fl & Hput & _)]]; [done|done|].
      by apply (reachable_step (Put raw (concat_all fw)) c1).
Qed.

End Discipline.

(** X19: for a client whose [recv] calls return at most [MAX_BYTES] bytes
    each, when the header loop ends [total_bytes] is the size of the
    buffer, the buffer is shorter than [MAX_HEADER_SIZE + MAX_BYTES] bytes,
    and [header_complete] tells whether the buffer holds the terminator. *)
Theorem X19_header_buffer_bound (recvs : list recv_result) (raw : string) (total : Z)
    (complete : bool) :
  Forall recv_bounded recvs ->
  receive_loop recvs EmptyString 0 = Done (raw, total, complete) ->
  total = size raw
  /\ size raw < MAX_HEADER_SIZE + MAX_BYTES
  /\ complete = header_found raw.
Proof.
  assert (forall recvs raw0 total0,
            Forall recv_bounded recvs ->
            total0 = size raw0 -> size raw0 < MAX_HEADER_SIZE + MAX_BYTES ->
            header_found raw0 = false ->
            receive_loop recvs raw0 total0 = Done (raw, total, complete) ->
            total = size raw /\ size raw < MAX_HEADER_SIZE + MAX_BYTES
            /\ complete = header_found raw) as Hgen.
  { clear recvs. induction recvs as [|r recvs IH];
      intros raw0 total0 Hb Htot Hlt Hnot H; rewrite receive_loop_unfold in H;
      destruct (Z.ltb_spec total0 MAX_HEADER_SIZE); try done;
      try (injection H as <- <- <-; done).
    apply Forall_cons in Hb as [Hr Hb]. unfold recv_bounded in Hr.
    destruct (Z.leb_spec (recv_count r) 0); [by injection H as <- <- <-|].
    destruct r as [s| |]; simpl in *; try lia.
    pose proof (size_nonneg raw0).
    rewrite wrap_small in H by (unfold modulus, MAX_HEADER_SIZE, MAX_BYTES in *; lia).
    assert (total0 + size s = size (raw0 +:+ s)) as Hsz by (rewrite size_append; lia).
    destruct (header_found (raw0 +:+ s)) eqn:Hf.
    - injection H as <- <- <-. split; [done|]. split; [|done]. rewrite <- Hsz. lia.
    - apply (IH (raw0 +:+ s) (total0 + size s)); try done. rewrite <- Hsz. lia. }
  intros Hb H. apply (Hgen recvs EmptyString 0); try done.
Qed.

Lemma X19_witness :
  45 = size Scenario.request_with_body
  /\ size Scenario.request_with_body < MAX_HEADER_SIZE + MAX_BYTES
  /\ true = header_found Scenario.request_with_body.
Proof.
  apply (X19_header_buffer_bound
           [RecvData "GET / HTTP/1.1"; RecvData (CRLF +:+ "Host: example.invalid");
            RecvData (CRLF +:+ CRLF +:+ "BODY"); RecvData "late"]
           Scenario.request_with_body 45 true).
  - repeat constructor; vm_compute; done.
  - vm_compute. reflexivity.
Defined.

Lemma X17_witness :
  (400 = 400 \/ 400 = 500 \/ 400 = 501)
  /\ last [CacheGet ("NOT_HTTP" +:+ terminator); SendError 400] = Some (SendError 400)
  /\ (forall bytes,
        SendClient bytes ∉ [CacheGet ("NOT_HTTP" +:+ terminator); SendError 400])
  /\ (forall k v,
        CachePut k v ∉ [CacheGet ("NOT_HTTP" +:+ terminator); SendError 400])
  /\ entries cache ≡ₚ entries cache
  /\ current_size cache = current_size cache.
Proof.
  apply (X17_error_reply_discipline Scenario.parse
           (Scenario.network_of [RecvData ("NOT_HTTP" +:+ terminator)] [])
           cache cache [CacheGet ("NOT_HTTP" +:+ terminator); SendError 400] 400).
  - vm_compute. reflexivity.
  - apply list_elem_of_further, list_elem_of_here.
Defined.

Lemma scenario_worker_run :
  exists c',
    thread_fn Scenario.parse
      (Scenario.network_of [RecvData Scenario.raw_request]
                           [RecvData Scenario.upstream_response; RecvClosed])
      cache
    = Done (c', [CacheGet Scenario.raw_request;
                 Connect "example.invalid";
                 SendRemote (build_request Scenario.parsed_request);
                 SendClient Scenario.upstream_response;
                 CachePut Scenario.raw_request Scenario.upstream_response]).
Proof. eexists. vm_compute. reflexivity. Qed.

Lemma X18_witness :
  let net := Scenario.network_of [RecvData Scenario.raw_request]
                                 [RecvData Scenario.upstream_response; RecvClosed] in
  let trace := [CacheGet Scenario.raw_request;
                Connect "example.invalid";
                SendRemote (build_request Scenario.parsed_request);
                SendClient Scenario.upstream_response;
                CachePut Scenario.raw_request Scenario.upstream_response] in
  (exists request,
     Scenario.parse Scenario.raw_request = Some request /\ method request = "GET")
  /\ connect_ok net = true
  /\ request_sent net = true
  /\ head trace = Some (CacheGet Scenario.raw_request)
  /\ last trace = Some (CachePut Scenario.raw_request Scenario.upstream_response)
  /\ forall status, SendError status ∉ trace.
Proof.
  intros net trace. destruct scenario_worker_run as [c' Hrun].
  apply (X18_insertion_needs_relayed_get Scenario.parse net cache c' trace
           Scenario.raw_request Scenario.upstream_response Hrun).
  do 4 apply list_elem_of_further. apply list_elem_of_here.
Defined.

Lemma X20_witness :
  thread_fn Scenario.parse
    (Scenario.network_of [RecvData Scenario.raw_request]
                         [RecvData Scenario.upstream_response; RecvClosed])
    cache <> Undefined
  /\ forall c' trace,
       thread_fn Scenario.parse
         (Scenario.network_of [RecvData Scenario.raw_request]
                              [RecvData Scenario.upstream_response; RecvClosed])
         cache = Done (c', trace) ->
       reachable c'.
Proof.
  apply (X20_worker_keeps_cache_sound Scenario.parse
           (Scenario.network_of [RecvData Scenario.raw_request]
                                [RecvData Scenario.upstream_response; RecvClosed])
           cache).
  by exists MAX_CACHE_SIZE, [].
Defined.

End WorkerMore.
